(** * HoverVideoPlayer: the hover play/pause coordinator

    A shallow embedding of [src/HoverVideoPlayer.js].  The component is a
    React function component whose behaviour lives in four callbacks
    ([playVideo], [pauseVideo], [onHoverStart], [onHoverEnd]), two promise
    reactions attached to the play promise, two timer callbacks and the
    clean-up of the mount effect.  All of them run on the single UI thread:
    every DOM event, timer expiry and promise reaction is one uninterrupted
    run of JavaScript.  The embedding therefore is a state-and-exception
    monad over a record [World] that holds everything those callbacks can
    read or write, plus a total [step] function that delivers one
    environment event at a time. *)

From Stdlib Require Import ZArith String.
From stdpp Require Import base option list gmap strings.

Local Open Scope Z_scope.

(** ** Enumerations *)

(** [HOVER_PLAYER_STATE], lines 13-17. *)
Module HOVER_PLAYER_STATE.
Inductive t : Set := paused | loading | playing.
#[global] Instance hover_state_eq_dec : EqDecision t.
Proof. solve_decision. Defined.
End HOVER_PLAYER_STATE.

(** Modelled from the spec: [VIDEO_STATE] and [getVideoState] are imported
    from [./utils], which is not among the sources.  The spec lists a
    "playback-state query" among the capabilities of the media element; the
    component compares its answer with [VIDEO_STATE.playing] (line 189) and
    with [VIDEO_STATE.paused] (line 246) only, so [other] stands for every
    answer that is neither. *)
Module VIDEO_STATE.
Inductive t : Set := paused | playing | other.
#[global] Instance video_state_eq_dec : EqDecision t.
Proof. solve_decision. Defined.
End VIDEO_STATE.

(** ** Promises, timers and listeners *)

Definition PromiseId := nat.
Definition TimerId := nat.

(** How a promise settled; a rejection carries the error value. *)
Inductive Settlement : Set :=
| Fulfilled
| Rejected (error : string).

(** A promise object: [native] tells a promise made by the browser's
    [play()] from one made by [new Promise] on line 130, [settled] is [None]
    while pending, and [chained] records that the reactions of lines 208-231
    ([.catch(...).then(...)]) have been attached. *)
Record Promise : Set := mkPromise {
  native : bool;
  settled : option Settlement;
  chained : bool
}.

(** The two closures handed to [setTimeout]: lines 197-201 and line 255. *)
Inductive TimerCallback : Set :=
| showLoadingState
| callPauseVideo.

Record Timer : Set := mkTimer {
  callback : TimerCallback;
  delay : Z
}.

(** The two closures handed to [addEventListener] on lines 136 and 143;
    each closes over the [resolve]/[reject] of one promise. *)
Inductive Listener : Set :=
| onVideoPlaybackStarted (p : PromiseId)
| onVideoPlaybackFailed (p : PromiseId).

#[global] Instance Listener_eq_dec : EqDecision Listener.
Proof. solve_decision. Defined.

(** ** The media element

    The [<video>] DOM node as far as the component touches it.
    [playbackState] is what [getVideoState] answers for the element;
    [currentTime] is the playback position, counted in milliseconds (the
    component only ever writes 0 to it); [playIsThenable] tells whether
    this browser's [play()] returns a promise.  [playCalls] and [pauseCalls] count the calls of [play()] and
    [pause()]; they are observations only and nothing reads them. *)
Record VideoElement : Set := mkVideo {
  playbackState : VIDEO_STATE.t;
  currentTime : Z;
  currentSrc : string;
  playIsThenable : bool;
  listeners : list (string * Listener);
  playCalls : nat;
  pauseCalls : nat
}.

(** ** Props and component state *)

(** The props that the callbacks read.  An overlay prop is a React node
    that is only ever tested for truthiness, hence a [bool]. *)
Record Props : Set := mkProps {
  isFocused : bool;
  pausedOverlay : bool;
  loadingOverlay : bool;
  loadingStateTimeoutDuration : Z;
  overlayFadeTransitionDuration : Z;
  shouldRestartOnVideoStopped : bool
}.

(** The defaults of lines 71-76. *)
Definition defaultProps : Props :=
  {| isFocused := false; pausedOverlay := false; loadingOverlay := false;
     loadingStateTimeoutDuration := 200;
     overlayFadeTransitionDuration := 400;
     shouldRestartOnVideoStopped := true |}.

(** [mutablePlayAttemptState.current], lines 97-101. *)
Record PlayAttemptState : Set := mkAttempt {
  playPromise : PromiseId;
  isPlayAttemptInProgress : bool;
  isPlayAttemptCancelled : bool
}.

Inductive exn : Set := TypeError.

(** Everything the callbacks can reach.  [videoAttached] is whether
    [videoRef.current] is the element (React sets it to [null] on unmount);
    [timers] is the window's table of pending timeouts and [promises] the
    promise objects; [jobs] is the microtask queue of promise reactions;
    [uncaught] collects exceptions that escaped a task or a reaction. *)
Record World : Type := mkWorld {
  props : Props;
  overlayState : HOVER_PLAYER_STATE.t;
  mutablePlayAttemptState : PlayAttemptState;
  video : VideoElement;
  videoAttached : bool;
  pauseTimeoutRef : option TimerId;
  loadingStateTimeoutRef : option TimerId;
  timers : gmap nat Timer;
  nextTimer : TimerId;
  promises : gmap nat Promise;
  nextPromise : PromiseId;
  jobs : list Settlement;
  console : list string;
  mounted : bool;
  uncaught : list exn
}.

(** Field updates of [World]: [set_f x w] is [w] with field [f] replaced. *)
Definition set_props (x : Props) (w : World) : World :=
  match w with
  | mkWorld _ os att v va pt lt tm nt pm np jb co mo un =>
    mkWorld x os att v va pt lt tm nt pm np jb co mo un
  end.
Arguments set_props _ !w /.
Definition set_overlayState (x : HOVER_PLAYER_STATE.t) (w : World) : World :=
  match w with
  | mkWorld pr _ att v va pt lt tm nt pm np jb co mo un =>
    mkWorld pr x att v va pt lt tm nt pm np jb co mo un
  end.
Arguments set_overlayState _ !w /.
Definition set_mutablePlayAttemptState (x : PlayAttemptState) (w : World) : World :=
  match w with
  | mkWorld pr os _ v va pt lt tm nt pm np jb co mo un =>
    mkWorld pr os x v va pt lt tm nt pm np jb co mo un
  end.
Arguments set_mutablePlayAttemptState _ !w /.
Definition set_video (x : VideoElement) (w : World) : World :=
  match w with
  | mkWorld pr os att _ va pt lt tm nt pm np jb co mo un =>
    mkWorld pr os att x va pt lt tm nt pm np jb co mo un
  end.
Arguments set_video _ !w /.
Definition set_videoAttached (x : bool) (w : World) : World :=
  match w with
  | mkWorld pr os att v _ pt lt tm nt pm np jb co mo un =>
    mkWorld pr os att v x pt lt tm nt pm np jb co mo un
  end.
Arguments set_videoAttached _ !w /.
Definition set_pauseTimeoutRef (x : option TimerId) (w : World) : World :=
  match w with
  | mkWorld pr os att v va _ lt tm nt pm np jb co mo un =>
    mkWorld pr os att v va x lt tm nt pm np jb co mo un
  end.
Arguments set_pauseTimeoutRef _ !w /.
Definition set_loadingStateTimeoutRef (x : option TimerId) (w : World) : World :=
  match w with
  | mkWorld pr os att v va pt _ tm nt pm np jb co mo un =>
    mkWorld pr os att v va pt x tm nt pm np jb co mo un
  end.
Arguments set_loadingStateTimeoutRef _ !w /.
Definition set_timers (x : gmap nat Timer) (w : World) : World :=
  match w with
  | mkWorld pr os att v va pt lt _ nt pm np jb co mo un =>
    mkWorld pr os att v va pt lt x nt pm np jb co mo un
  end.
Arguments set_timers _ !w /.
Definition set_nextTimer (x : TimerId) (w : World) : World :=
  match w with
  | mkWorld pr os att v va pt lt tm _ pm np jb co mo un =>
    mkWorld pr os att v va pt lt tm x pm np jb co mo un
  end.
Arguments set_nextTimer _ !w /.
Definition set_promises (x : gmap nat Promise) (w : World) : World :=
  match w with
  | mkWorld pr os att v va pt lt tm nt _ np jb co mo un =>
    mkWorld pr os att v va pt lt tm nt x np jb co mo un
  end.
Arguments set_promises _ !w /.
Definition set_nextPromise (x : PromiseId) (w : World) : World :=
  match w with
  | mkWorld pr os att v va pt lt tm nt pm _ jb co mo un =>
    mkWorld pr os att v va pt lt tm nt pm x jb co mo un
  end.
Arguments set_nextPromise _ !w /.
Definition set_jobs (x : list Settlement) (w : World) : World :=
  match w with
  | mkWorld pr os att v va pt lt tm nt pm np _ co mo un =>
    mkWorld pr os att v va pt lt tm nt pm np x co mo un
  end.
Arguments set_jobs _ !w /.
Definition set_console (x : list string) (w : World) : World :=
  match w with
  | mkWorld pr os att v va pt lt tm nt pm np jb _ mo un =>
    mkWorld pr os att v va pt lt tm nt pm np jb x mo un
  end.
Arguments set_console _ !w /.
Definition set_mounted (x : bool) (w : World) : World :=
  match w with
  | mkWorld pr os att v va pt lt tm nt pm np jb co _ un =>
    mkWorld pr os att v va pt lt tm nt pm np jb co x un
  end.
Arguments set_mounted _ !w /.
Definition set_uncaught (x : list exn) (w : World) : World :=
  match w with
  | mkWorld pr os att v va pt lt tm nt pm np jb co mo _ =>
    mkWorld pr os att v va pt lt tm nt pm np jb co mo x
  end.
Arguments set_uncaught _ !w /.

(** ** The monad of callbacks

    A callback is a function from the world to a completion and the world
    it leaves behind.  A thrown exception keeps the writes made before it,
    as in JavaScript. *)

Inductive completion (A : Type) : Type :=
| Normal (a : A)
| Throw (e : exn).
Arguments Normal {A} a.
Arguments Throw {A} e.

Definition M (A : Type) : Type := World -> completion A * World.

Definition ret {A : Type} (a : A) : M A := fun w => (Normal a, w).

Definition bind {A B : Type} (m : M A) (k : A -> M B) : M B :=
  fun w =>
    match m w with
    | (Normal a, w') => k a w'
    | (Throw e, w') => (Throw e, w')
    end.

Definition throw {A : Type} (e : exn) : M A := fun w => (Throw e, w).

Definition gets {A : Type} (f : World -> A) : M A := fun w => (Normal (f w), w).

Definition modify (f : World -> World) : M unit := fun w => (Normal tt, f w).

Declare Scope js_scope.
Delimit Scope js_scope with js.
Notation "x <- m ;; k" := (bind m (fun x => k))
  (at level 100, m at next level, right associativity) : js_scope.
Notation "m ;; k" := (bind m (fun _ => k))
  (at level 100, right associativity) : js_scope.
Local Open Scope js_scope.

(** The world a callback leaves behind, whatever its completion. *)
Definition exec {A : Type} (m : M A) (w : World) : World := snd (m w).

(** ** Browser and React primitives *)

(** [clearTimeout(ref.current)]: removes the timer from the table;
    [undefined] and the id of a timer that already ran are ignored. *)
Definition cancel (id : option TimerId) (m : gmap nat Timer) : gmap nat Timer :=
  match id with
  | Some i => delete i m
  | None => m
  end.

Definition clearTimeout (id : option TimerId) : M unit :=
  modify (fun w => set_timers (cancel id (timers w)) w).

(** [setTimeout(cb, d)]: enters the timer under a fresh id and returns it. *)
Definition setTimeout (cb : TimerCallback) (d : Z) : M TimerId :=
  i <- gets nextTimer ;;
  modify (fun w => set_nextTimer (S i)
                     (set_timers (<[i := mkTimer cb d]> (timers w)) w)) ;;
  ret i.

(** [setOverlayState(s)], the setter of the [useState] cell of line 87. *)
Definition setOverlayState (s : HOVER_PLAYER_STATE.t) : M unit :=
  modify (set_overlayState s).

(** Writes to the fields of [mutablePlayAttemptState.current]. *)
Definition set_isPlayAttemptInProgress (b : bool) : M unit :=
  modify (fun w =>
    let a := mutablePlayAttemptState w in
    set_mutablePlayAttemptState
      (mkAttempt (playPromise a) b (isPlayAttemptCancelled a)) w).

Definition set_isPlayAttemptCancelled (b : bool) : M unit :=
  modify (fun w =>
    let a := mutablePlayAttemptState w in
    set_mutablePlayAttemptState
      (mkAttempt (playPromise a) (isPlayAttemptInProgress a) b) w).

Definition set_playPromise (p : PromiseId) : M unit :=
  modify (fun w =>
    let a := mutablePlayAttemptState w in
    set_mutablePlayAttemptState
      (mkAttempt p (isPlayAttemptInProgress a) (isPlayAttemptCancelled a)) w).

(** A reference to the [<video>] node.  The component renders one such
    node, so the reference carries no data: every holder of it reaches the
    same object, the field [video] of the world. *)
Inductive Node : Set := videoNode.

(** [videoRef.current]: the node, or [null].  Reading a property of
    [null] or calling a method on it throws a [TypeError]. *)
Definition videoRef_current : M (option Node) :=
  gets (fun w => if videoAttached w then Some videoNode else None).

Definition deref {A : Type} (o : option A) : M A :=
  match o with
  | Some a => ret a
  | None => throw TypeError
  end.

(** [getVideoState(videoRef.current)]. *)
Definition getVideoState (el : option Node) : M VIDEO_STATE.t :=
  _ <- deref el ;;
  gets (fun w => playbackState (video w)).

(** [videoRef.current.currentSrc]. *)
Definition videoElement_currentSrc (el : option Node) : M string :=
  _ <- deref el ;;
  gets (fun w => currentSrc (video w)).

(** [new Promise(...)] and the browser's own promise: a fresh pending
    promise object. *)
Definition newPromise (isNative : bool) : M PromiseId :=
  p <- gets nextPromise ;;
  modify (fun w => set_nextPromise (S p)
                     (set_promises (<[p := mkPromise isNative None false]>
                                      (promises w)) w)) ;;
  ret p.

(** [videoElement.play()]: counts the call and returns the browser's
    promise, or [undefined] where [play()] does not return one. *)
Definition videoElement_play (el : option Node) : M (option PromiseId) :=
  _ <- deref el ;;
  modify (fun w =>
    let v := video w in
    set_video (mkVideo (playbackState v) (currentTime v) (currentSrc v)
                 (playIsThenable v) (listeners v) (S (playCalls v))
                 (pauseCalls v)) w) ;;
  thenable <- gets (fun w => playIsThenable (video w)) ;;
  if (thenable : bool) then
    p <- newPromise true ;; ret (Some p)
  else ret None.

(** [videoElement.pause()]. *)
Definition videoElement_pause (el : option Node) : M unit :=
  _ <- deref el ;;
  modify (fun w =>
    let v := video w in
    set_video (mkVideo (playbackState v) (currentTime v) (currentSrc v)
                 (playIsThenable v) (listeners v) (playCalls v)
                 (S (pauseCalls v))) w).

(** [videoElement.currentTime = t]. *)
Definition videoElement_set_currentTime (el : option Node) (t : Z) : M unit :=
  _ <- deref el ;;
  modify (fun w =>
    let v := video w in
    set_video (mkVideo (playbackState v) t (currentSrc v)
                 (playIsThenable v) (listeners v) (playCalls v)
                 (pauseCalls v)) w).

(** [videoElement.addEventListener(type, l)] and
    [videoElement.removeEventListener(type, l)].  The element here is the
    [const videoElement] captured on line 122, never [null] once [play()]
    was called on it. *)
Definition addEventListener (type : string) (l : Listener) : M unit :=
  modify (fun w =>
    let v := video w in
    set_video (mkVideo (playbackState v) (currentTime v) (currentSrc v)
                 (playIsThenable v) (listeners v ++ [(type, l)])
                 (playCalls v) (pauseCalls v)) w).

Definition removeEventListener (type : string) (l : Listener) : M unit :=
  modify (fun w =>
    let v := video w in
    set_video (mkVideo (playbackState v) (currentTime v) (currentSrc v)
                 (playIsThenable v)
                 (filter (fun x => x <> (type, l)) (listeners v))
                 (playCalls v) (pauseCalls v)) w).

(** [console.error(msg)]. *)
Definition console_error (msg : string) : M unit :=
  modify (fun w => set_console (console w ++ [msg]) w).

(** Settling a promise, the [resolve]/[reject] of line 130 and the
    browser's settling of its own promise alike: a promise settles once,
    and settling one with reactions attached queues the reaction job. *)
Definition settle (p : PromiseId) (s : Settlement) : M unit :=
  modify (fun w =>
    match promises w !! p with
    | Some (mkPromise n None c) =>
        let w' := set_promises (<[p := mkPromise n (Some s) c]> (promises w)) w in
        if c then set_jobs (jobs w' ++ [s]) w' else w'
    | _ => w
    end).

(** [promise.catch(...).then(...)]: attaches the reactions of lines
    208-231; on a promise that is settled already the reaction job is
    queued at once. *)
Definition attachReactions (p : PromiseId) : M unit :=
  modify (fun w =>
    match promises w !! p with
    | Some (mkPromise n s _) =>
        let w' := set_promises (<[p := mkPromise n s true]> (promises w)) w in
        match s with
        | Some s' => set_jobs (jobs w' ++ [s']) w'
        | None => w'
        end
    | None => w
    end).

(** ** The component's callbacks *)

(** [playVideo], lines 118-150. *)
Definition playVideo : M PromiseId :=
  set_isPlayAttemptInProgress true ;;
  videoElement <- videoRef_current ;;
  r <- videoElement_play videoElement ;;
  promise <-
    match r with
    | Some p => ret p
    | None =>
        p <- newPromise false ;;
        addEventListener "playing" (onVideoPlaybackStarted p) ;;
        addEventListener "error" (onVideoPlaybackFailed p) ;;
        ret p
    end ;;
  set_playPromise promise ;;
  ret promise.

(** [pauseVideo], lines 158-173. *)
Definition pauseVideo : M unit :=
  inProgress <- gets (fun w => isPlayAttemptInProgress (mutablePlayAttemptState w)) ;;
  if (inProgress : bool) then
    set_isPlayAttemptCancelled true
  else
    videoElement <- videoRef_current ;;
    videoElement_pause videoElement ;;
    restart <- gets (fun w => shouldRestartOnVideoStopped (props w)) ;;
    if (restart : bool) then videoElement_set_currentTime videoElement 0
    else ret tt.

(** The template literal of line 213. *)
Definition playbackFailedMessage (src error : string) : string :=
  ("HoverVideoPlayer playback failed for src " ++ src ++ ": " ++ error)%string.
Arguments playbackFailedMessage : simpl never.

(** The [.catch] handler of lines 208-218. *)
Definition onPlayRejected (error : string) : M unit :=
  set_isPlayAttemptInProgress false ;;
  t <- gets loadingStateTimeoutRef ;;
  clearTimeout t ;;
  el <- videoRef_current ;;
  src <- videoElement_currentSrc el ;;
  console_error (playbackFailedMessage src error) ;;
  pauseVideo.

(** The [.then] handler of lines 219-231. *)
Definition onPlaySettled : M unit :=
  set_isPlayAttemptInProgress false ;;
  t <- gets loadingStateTimeoutRef ;;
  clearTimeout t ;;
  cancelled <- gets (fun w => isPlayAttemptCancelled (mutablePlayAttemptState w)) ;;
  if (cancelled : bool) then
    set_isPlayAttemptCancelled false ;;
    pauseVideo
  else
    setOverlayState HOVER_PLAYER_STATE.playing.

(** [onHoverStart], lines 180-232. *)
Definition onHoverStart : M unit :=
  t <- gets pauseTimeoutRef ;;
  clearTimeout t ;;
  t <- gets loadingStateTimeoutRef ;;
  clearTimeout t ;;
  set_isPlayAttemptCancelled false ;;
  el <- videoRef_current ;;
  vs <- getVideoState el ;;
  match vs with
  | VIDEO_STATE.playing =>
      setOverlayState HOVER_PLAYER_STATE.playing
  | _ =>
      lo <- gets (fun w => loadingOverlay (props w)) ;;
      (if (lo : bool) then
         d <- gets (fun w => loadingStateTimeoutDuration (props w)) ;;
         i <- setTimeout showLoadingState d ;;
         modify (set_loadingStateTimeoutRef (Some i))
       else ret tt) ;;
      inProgress <- gets (fun w => isPlayAttemptInProgress (mutablePlayAttemptState w)) ;;
      if (inProgress : bool) then ret tt
      else
        p <- playVideo ;;
        attachReactions p
  end.

(** [onHoverEnd], lines 239-259.  [||] does not evaluate
    [getVideoState(videoRef.current)] when [isFocused] is true. *)
Definition onHoverEnd : M unit :=
  t <- gets loadingStateTimeoutRef ;;
  clearTimeout t ;;
  t <- gets pauseTimeoutRef ;;
  clearTimeout t ;;
  focused <- gets (fun w => isFocused (props w)) ;;
  ignore <-
    (if (focused : bool) then ret true
     else
       el <- videoRef_current ;;
       vs <- getVideoState el ;;
       ret (match vs with VIDEO_STATE.paused => true | _ => false end)) ;;
  if (ignore : bool) then ret tt
  else
    setOverlayState HOVER_PLAYER_STATE.paused ;;
    po <- gets (fun w => pausedOverlay (props w)) ;;
    d <- gets (fun w => overlayFadeTransitionDuration (props w)) ;;
    i <- setTimeout callPauseVideo (if (po : bool) then d else 0) ;;
    modify (set_pauseTimeoutRef (Some i)).

(** The effect of lines 262-272, run on mount and whenever [isFocused]
    changes. *)
Definition isFocusedEffect : M unit :=
  focused <- gets (fun w => isFocused (props w)) ;;
  if (focused : bool) then onHoverStart else onHoverEnd.

(** The clean-up of the mount effect, lines 299-305. *)
Definition cleanup : M unit :=
  t <- gets loadingStateTimeoutRef ;;
  clearTimeout t ;;
  t <- gets pauseTimeoutRef ;;
  clearTimeout t ;;
  set_isPlayAttemptCancelled true.

(** What a timer does when it expires. *)
Definition runTimerCallback (cb : TimerCallback) : M unit :=
  match cb with
  | showLoadingState => setOverlayState HOVER_PLAYER_STATE.loading
  | callPauseVideo => pauseVideo
  end.

(** What a listener does when its event is dispatched, lines 132-135 and
    139-142; [error] is [event.error]. *)
Definition runListener (l : Listener) (error : string) : M unit :=
  match l with
  | onVideoPlaybackStarted p =>
      settle p Fulfilled ;;
      removeEventListener "playing" (onVideoPlaybackStarted p)
  | onVideoPlaybackFailed p =>
      settle p (Rejected error) ;;
      removeEventListener "error" (onVideoPlaybackFailed p)
  end.

(** The reaction job of [playVideo().catch(h1).then(h2)].  A fulfilment
    passes through [.catch] to [h2].  On a rejection [h1] runs; when it
    returns normally the promise made by [.catch] is fulfilled, so [h2]
    runs after it; when [h1] throws, that promise is rejected and [h2] is
    skipped. *)
Definition reaction (s : Settlement) : M unit :=
  match s with
  | Fulfilled => onPlaySettled
  | Rejected error => onPlayRejected error ;; onPlaySettled
  end.

(** ** The event loop *)

(** What the environment can deliver to a mounted (or unmounted)
    component. *)
Inductive Event : Type :=
| HoverStart
    (** [onMouseEnter], [onFocus], [onTouchStart]: lines 330-334 *)
| HoverEnd
    (** [onMouseOut], [onBlur], a touch outside the container: lines
        332-333 and 276-280 *)
| SetIsFocused (b : bool)
    (** the parent re-renders the component with a new [isFocused] *)
| TimerExpired (i : TimerId)
    (** a pending timeout runs *)
| PlaySettled (p : PromiseId) (s : Settlement)
    (** the browser settles the promise its [play()] returned *)
| VideoEvent (type : string) (error : string)
    (** the element fires an event of that type; [error] is
        [event.error] *)
| VideoStateChanged (vs : VIDEO_STATE.t)
    (** the element's playback state changes *)
| TimeUpdate (t : Z)
    (** playback moves the element's position *)
| Unmount.

Definition escaped (r : completion unit * World) : World :=
  match r with
  | (Normal _, w) => w
  | (Throw e, w) => set_uncaught (uncaught w ++ [e]) w
  end.

(** One reaction job; an exception it throws is an unhandled rejection. *)
Definition runJob (w : World) (s : Settlement) : World :=
  escaped (reaction s w).

(** The microtask checkpoint: the queued reaction jobs run in order.  The
    reactions never settle a promise, so one pass empties the queue. *)
Definition runJobs (w : World) : World :=
  fold_left runJob (jobs w) (set_jobs [] w).

(** A task: one callback run to completion, then the microtasks. *)
Definition runTask (m : M unit) (w : World) : World :=
  runJobs (escaped (m w)).

Definition set_isFocused (b : bool) (p : Props) : Props :=
  mkProps b (pausedOverlay p) (loadingOverlay p)
    (loadingStateTimeoutDuration p) (overlayFadeTransitionDuration p)
    (shouldRestartOnVideoStopped p).

Definition listenersOf (type : string) (v : VideoElement) : list Listener :=
  snd <$> filter (fun x => fst x = type) (listeners v).

Definition step (w : World) (e : Event) : World :=
  match e with
  | HoverStart => if mounted w then runTask onHoverStart w else w
  | HoverEnd => if mounted w then runTask onHoverEnd w else w
  | SetIsFocused b =>
      if mounted w && negb (Bool.eqb b (isFocused (props w))) then
        runTask isFocusedEffect (set_props (set_isFocused b (props w)) w)
      else w
  | TimerExpired i =>
      match timers w !! i with
      | Some t =>
          runTask (runTimerCallback (callback t))
            (set_timers (delete i (timers w)) w)
      | None => w
      end
  | PlaySettled p s =>
      match promises w !! p with
      | Some (mkPromise true None _) => runTask (settle p s) w
      | _ => w
      end
  | VideoEvent type error =>
      fold_left (fun w l => runTask (runListener l error) w)
        (listenersOf type (video w)) w
  | VideoStateChanged vs =>
      let v := video w in
      set_video (mkVideo vs (currentTime v) (currentSrc v)
                   (playIsThenable v) (listeners v) (playCalls v)
                   (pauseCalls v)) w
  | TimeUpdate t =>
      let v := video w in
      set_video (mkVideo (playbackState v) t (currentSrc v)
                   (playIsThenable v) (listeners v) (playCalls v)
                   (pauseCalls v)) w
  | Unmount =>
      if mounted w then
        runTask cleanup (set_videoAttached false (set_mounted false w))
      else w
  end.

Definition run (w : World) (es : list Event) : World := fold_left step es w.

(** A [<video>] element as React creates it: paused at position 0, no
    listeners. *)
Definition newVideoElement (src : string) (thenable : bool) : VideoElement :=
  mkVideo VIDEO_STATE.paused 0 src thenable [] 0 0.

(** The component before its effects ran: lines 87-110.  Promise 0 is the
    [Promise.resolve()] of line 98. *)
Definition initialWorld (p : Props) (v : VideoElement) : World :=
  {| props := p;
     overlayState := HOVER_PLAYER_STATE.paused;
     mutablePlayAttemptState := mkAttempt 0%nat false false;
     video := v;
     videoAttached := true;
     pauseTimeoutRef := None;
     loadingStateTimeoutRef := None;
     timers := ∅;
     nextTimer := 1%nat;
     promises := {[ 0%nat := mkPromise false (Some Fulfilled) false ]};
     nextPromise := 1%nat;
     jobs := [];
     console := [];
     mounted := true;
     uncaught := [] |}.

(** Mounting runs the [isFocused] effect once. *)
Definition mount (p : Props) (src : string) (thenable : bool) : World :=
  runTask isFocusedEffect (initialWorld p (newVideoElement src thenable)).

(** The states the component can be in. *)
Inductive reachable : World -> Prop :=
| reachable_mount p src thenable : reachable (mount p src thenable)
| reachable_step w e : reachable w -> reachable (step w e).

(** ** Invariants of the reachable states *)

Definition listenerType (l : Listener) : string :=
  match l with
  | onVideoPlaybackStarted _ => "playing"
  | onVideoPlaybackFailed _ => "error"
  end.

Definition listenerPromise (l : Listener) : PromiseId :=
  match l with
  | onVideoPlaybackStarted p => p
  | onVideoPlaybackFailed p => p
  end.

(** How a listener settles its promise when its event fires with
    [event.error = error]. *)
Definition listenerSettlement (l : Listener) (error : string) : Settlement :=
  match l with
  | onVideoPlaybackStarted _ => Fulfilled
  | onVideoPlaybackFailed _ => Rejected error
  end.

(** The promise table after [p] was settled with [s]: a pending promise
    takes the settlement, a settled or unknown one is left alone. *)
Definition settled_with (p : PromiseId) (s : Settlement)
    (pm : gmap nat Promise) : gmap nat Promise :=
  match pm !! p with
  | Some (mkPromise n None c) => <[p := mkPromise n (Some s) c]> pm
  | _ => pm
  end.

(** A play attempt is pending on [p]: the promise is unsettled and the
    reactions of [onHoverStart] wait on it. *)
Definition pendingAttempt (w : World) (p : PromiseId) : Prop :=
  exists n, promises w !! p = Some (mkPromise n None true).

(** What holds between any two tasks. *)
Record Inv (w : World) : Prop := mkInv {
  inv_jobs : jobs w = [];
  inv_attached : mounted w = true -> videoAttached w = true;
  inv_timers : forall i, is_Some (timers w !! i) ->
    loadingStateTimeoutRef w = Some i \/ pauseTimeoutRef w = Some i;
  inv_promise_ids : forall p, is_Some (promises w !! p) ->
    (p < nextPromise w)%nat;
  inv_attempt : forall p, pendingAttempt w p ->
    isPlayAttemptInProgress (mutablePlayAttemptState w) = true /\
    playPromise (mutablePlayAttemptState w) = p;
  inv_unmounted : mounted w = false ->
    timers w = ∅ /\
    (isPlayAttemptInProgress (mutablePlayAttemptState w) = true ->
     isPlayAttemptCancelled (mutablePlayAttemptState w) = true);
  inv_listeners : forall ty l, (ty, l) ∈ listeners (video w) ->
    ty = listenerType l /\ (listenerPromise l < nextPromise w)%nat
}.

(** An event that cannot start a hover: anything but [HoverStart] and
    [isFocused] turning true, which runs [onHoverStart]. *)
Definition notHoverStart (e : Event) : Prop :=
  match e with
  | HoverStart | SetIsFocused true => False
  | _ => True
  end.

(** No timer that would show the loading state is pending. *)
Definition noLoadingTimer (w : World) : Prop :=
  forall i t, timers w !! i = Some t -> callback t = callPauseVideo.

(** A state is quiet when no loading timer is pending and the loading
    state is not shown. *)
Definition quiet (w : World) : Prop :=
  noLoadingTimer w /\ overlayState w <> HOVER_PLAYER_STATE.loading.

(** ** A concrete player

    Both overlays provided, every other prop at its default, and a source
    [video.mp4].  [idle] is that player once mounted, [hovered] is it after
    a hover has started and the browser has taken the element out of its
    paused state, and [idleNoPromise] is the idle player in a browser whose
    [play()] returns no promise. *)
Definition overlayProps : Props :=
  {| isFocused := false; pausedOverlay := true; loadingOverlay := true;
     loadingStateTimeoutDuration := 200;
     overlayFadeTransitionDuration := 400;
     shouldRestartOnVideoStopped := true |}.

Definition idle : World := mount overlayProps "video.mp4" true.

Definition hovered : World :=
  step (step idle HoverStart) (VideoStateChanged VIDEO_STATE.other).

Definition idleNoPromise : World := mount overlayProps "video.mp4" false.


(** ** The asset parser *)

Module AssetParser.

(** [VideoSource], lines 19-23, and [VideoCaptionsTrack], lines 25-30;
    an attribute that the input does not give is absent. *)
Record VideoSource : Set := mkVideoSource {
  src : string;
  type : option string
}.

Record VideoCaptionsTrack : Set := mkVideoCaptionsTrack {
  track_src : string;
  srcLang : option string;
  label : option string
}.

(** The shapes of the [videoSrc] and [videoCaptions] props, lines 35-47: a
    string, an object, or an array of either; [Unrecognized] is any other
    value. *)
Inductive Item (O : Type) : Type :=
| ItemString (s : string)
| ItemObject (o : O).
Arguments ItemString {O} s.
Arguments ItemObject {O} o.

Inductive Input (O : Type) : Type :=
| Single (i : Item O)
| Array (l : list (Item O))
| Unrecognized.
Arguments Single {O} i.
Arguments Array {O} l.
Arguments Unrecognized {O}.

(** Modelled from the spec: [formatVideoSrc] and [formatVideoCaptions] are
    imported from [./utils], which is not among the sources; only their
    call sites (lines 311 and 318) are.  Following the spec, a string
    becomes a one-element list, an object becomes a one-element list, an
    array is passed through with its elements normalized, and an
    unrecognized shape is ignored. *)
Definition format {O : Type} (ofString : string -> O) (i : Input O) : list O :=
  let normalize (x : Item O) : O :=
    match x with
    | ItemString s => ofString s
    | ItemObject o => o
    end in
  match i with
  | Single x => [normalize x]
  | Array l => map normalize l
  | Unrecognized => []
  end.

Definition formatVideoSrc : Input VideoSource -> list VideoSource :=
  format (fun s => mkVideoSource s None).

Definition formatVideoCaptions : Input VideoCaptionsTrack -> list VideoCaptionsTrack :=
  format (fun s => mkVideoCaptionsTrack s None None).

(** The [src] an input item carries. *)
Definition sourceSrc (x : Item VideoSource) : string :=
  match x with
  | ItemString s => s
  | ItemObject o => src o
  end.

Definition trackSrc (x : Item VideoCaptionsTrack) : string :=
  match x with
  | ItemString s => s
  | ItemObject o => track_src o
  end.

End AssetParser.

(** ** Timers and phases in the reachable states *)

(** The delay [onHoverEnd] gives the pause timer, line 257. *)
Definition pauseDelay (p : Props) : Z :=
  if pausedOverlay p then overlayFadeTransitionDuration p else 0.

(** The timer table in a reachable state: empty, or the one loading timer
    of [onHoverStart], or the one pause timer of [onHoverEnd]. *)
Inductive TimerTable (w : World) : Prop :=
| no_timer :
    timers w = ∅ ->
    TimerTable w
| loading_timer (i : nat) :
    timers w =
      {[ i := mkTimer showLoadingState (loadingStateTimeoutDuration (props w)) ]} ->
    loadingStateTimeoutRef w = Some i ->
    loadingOverlay (props w) = true ->
    isPlayAttemptInProgress (mutablePlayAttemptState w) = true ->
    isPlayAttemptCancelled (mutablePlayAttemptState w) = false ->
    TimerTable w
| pause_timer (i : nat) :
    timers w = {[ i := mkTimer callPauseVideo (pauseDelay (props w)) ]} ->
    pauseTimeoutRef w = Some i ->
    isFocused (props w) = false ->
    overlayState w <> HOVER_PLAYER_STATE.loading ->
    TimerTable w.

(** What holds between any two tasks about timers, the loading state and
    the cancelled flag. *)
Record Inv2 (w : World) : Prop := mkInv2 {
  inv2_timers : TimerTable w;
  inv2_loading_overlay :
    overlayState w = HOVER_PLAYER_STATE.loading ->
    loadingOverlay (props w) = true;
  inv2_loading_attempt :
    mounted w = true ->
    overlayState w = HOVER_PLAYER_STATE.loading ->
    isPlayAttemptInProgress (mutablePlayAttemptState w) = true;
  inv2_cancelled :
    mounted w = true ->
    isPlayAttemptCancelled (mutablePlayAttemptState w) = true ->
    overlayState w <> HOVER_PLAYER_STATE.loading /\
    isFocused (props w) = false
}.

(** No timer that would pause the video is pending. *)
Definition noPauseTimer (w : World) : Prop :=
  forall i t, timers w !! i = Some t -> callback t = showLoadingState.

(** The element plays undisturbed: the component is mounted, no
    cancellation is recorded and no pause timer is pending. *)
Definition calm (w : World) : Prop :=
  mounted w = true /\
  isPlayAttemptCancelled (mutablePlayAttemptState w) = false /\
  noPauseTimer w.

(** The events that do not stop the video for a player whose [isFocused]
    is [focused]: everything but a hover end (unless [isFocused] forces
    play), [isFocused] turning false, a rejected play promise, an element
    event other than ['playing'], and unmounting. *)
Definition noStop (focused : bool) (e : Event) : Prop :=
  match e with
  | HoverEnd => focused = true
  | SetIsFocused b => b = true
  | PlaySettled _ (Rejected _) => False
  | VideoEvent type _ => type = "playing"%string
  | Unmount => False
  | _ => True
  end.

(** ** What is rendered

    The [opacity] of the two overlay wrappers, lines 340-345 and 358-363;
    a wrapper is rendered only when its overlay is given. *)
Definition pausedOverlayOpacity (w : World) : option Z :=
  if pausedOverlay (props w) then
    Some (match overlayState w with
          | HOVER_PLAYER_STATE.playing => 0
          | _ => 1
          end)
  else None.

Definition loadingOverlayOpacity (w : World) : option Z :=
  if loadingOverlay (props w) then
    Some (match overlayState w with
          | HOVER_PLAYER_STATE.loading => 1
          | _ => 0
          end)
  else None.

(** ** Attempts and the tasks that settle them *)

(** The element still holds both listeners that settle promise [p]. *)
Definition listening (w : World) (p : PromiseId) : Prop :=
  ("playing"%string, onVideoPlaybackStarted p) ∈ listeners (video w) /\
  ("error"%string, onVideoPlaybackFailed p) ∈ listeners (video w).

(** A third invariant: an attempt marked in progress waits on a pending
    promise, and a pending promise made by [playVideo] itself still has its
    listeners on the element. *)
Record Inv3 (w : World) : Prop := mkInv3 {
  inv3_in_progress :
    isPlayAttemptInProgress (mutablePlayAttemptState w) = true ->
    pendingAttempt w (playPromise (mutablePlayAttemptState w));
  inv3_listening : forall p c,
    promises w !! p = Some (mkPromise false None c) -> listening w p
}.

(** A task either leaves the element's pause count and the in-progress
    flag alone, or ends with no attempt in progress. *)
Definition pausedSafely (w w' : World) : Prop :=
  isPlayAttemptInProgress (mutablePlayAttemptState w') = false \/
  (pauseCalls (video w') = pauseCalls (video w) /\
   isPlayAttemptInProgress (mutablePlayAttemptState w') =
   isPlayAttemptInProgress (mutablePlayAttemptState w)).

(** What a task leaves alone: nothing is thrown while the component is
    mounted, the playback position is kept unless
    [shouldRestartOnVideoStopped] is set, and the props are not written. *)
Definition sparing (w w' : World) : Prop :=
  (mounted w = true -> uncaught w' = uncaught w) /\
  (shouldRestartOnVideoStopped (props w) = false ->
   currentTime (video w') = currentTime (video w)) /\
  props w' = props w /\
  mounted w' = mounted w.

(** An event that is not the element's own playback moving the position. *)
Definition notTimeUpdate (e : Event) : Prop :=
  match e with
  | TimeUpdate _ => False
  | _ => True
  end.

(** An event that carries a failure of the play attempt. *)
Definition isFailure (e : Event) : Prop :=
  match e with
  | PlaySettled _ (Rejected _) => True
  | VideoEvent type _ => type = "error"%string
  | _ => False
  end.

(** * Proofs *)

(** ** Timers *)

Lemma cancel_None r (m : gmap nat Timer) i : m !! i = None -> cancel r m !! i = None.
Proof. destruct r; simpl; [|done]. intros. rewrite lookup_delete_None. auto. Qed.

Lemma cancel_Some r (m : gmap nat Timer) i t :
  cancel r m !! i = Some t -> m !! i = Some t.
Proof. destruct r; simpl; [|done]. rewrite lookup_delete_Some. tauto. Qed.

Lemma cancel_is_Some r (m : gmap nat Timer) i :
  is_Some (cancel r m !! i) -> is_Some (m !! i).
Proof. intros [t Ht]. exists t. eauto using cancel_Some. Qed.

Lemma cancel_empty r : cancel r ∅ = ∅.
Proof. destruct r; simpl; [|done]. apply delete_empty. Qed.

Lemma cancel_both a b (m : gmap nat Timer) :
  (forall i, is_Some (m !! i) -> a = Some i \/ b = Some i) ->
  cancel a (cancel b m) = ∅ /\ cancel b (cancel a m) = ∅.
Proof.
  intros H. split; apply map_empty; intros i; destruct (m !! i) eqn:E.
  all: try (by do 2 apply cancel_None).
  all: destruct (H i) as [->| ->]; [by eauto| |]; simpl.
  all: try apply lookup_delete_eq.
  all: apply cancel_None; apply lookup_delete_eq.
Qed.

Lemma empty_no_timer (i : nat) : is_Some ((∅ : gmap nat Timer) !! i) -> False.
Proof. rewrite lookup_empty. by intros [? ?]. Qed.

(** ** Symbolic execution of the callbacks *)

Ltac destruct_world w :=
  destruct w as [[foc po lo ld fd rs] os [pp ip ic] [ps ct cs th ls pc pac]
                  va ptr ltr tm nt pm np jb co mo un].

Ltac run_js :=
  repeat (cbn;
          rewrite ?lookup_insert_eq, ?insert_insert_eq, ?cancel_empty).


Ltac inv_timers Ht :=
  let i := fresh "i" in let Hi := fresh "Hi" in
  intros i Hi;
  repeat match type of Hi with
  | is_Some (cancel _ _ !! _) => apply cancel_is_Some in Hi
  | is_Some (delete _ _ !! _) =>
      apply lookup_delete_is_Some in Hi; destruct Hi as [_ Hi]
  end;
  lazymatch type of Hi with
  | is_Some (∅ !! _) => by apply empty_no_timer in Hi
  | is_Some (<[_ := _]> ∅ !! _) =>
      apply lookup_insert_is_Some in Hi; rewrite lookup_empty in Hi;
      destruct Hi as [->|[_ [? ?]]]; [by auto|done]
  | _ => by apply Ht
  end.

Lemma Inv_initial p v : listeners v = [] -> Inv (initialWorld p v).
Proof.
  intros Hl. split; cbn; try done.
  - inv_timers I.
  - intros q [x Hq]. apply lookup_singleton_Some in Hq as [<- _]. lia.
  - intros q [n Hq]. cbn in Hq. by apply lookup_singleton_Some in Hq as [_ ?].
  - rewrite Hl. intros ty l Hin. by apply elem_of_nil in Hin.
Qed.


Ltac inv_promise_ids Hp :=
  let q := fresh "q" in let Hq := fresh "Hq" in
  intros q Hq;
  repeat (apply lookup_insert_is_Some in Hq; destruct Hq as [->|[_ Hq]]; [lia|]);
  apply Hp in Hq; lia.

Ltac inv_listeners Hl :=
  let ty := fresh "ty" in let l := fresh "l" in let Hin := fresh "Hin" in
  intros ty l Hin;
  repeat match type of Hin with
  | _ ∈ _ ++ _ => apply elem_of_app in Hin; destruct Hin as [Hin|Hin]
  | _ ∈ _ :: _ => apply elem_of_cons in Hin; destruct Hin as [Hin|Hin]
  | _ ∈ filter _ _ => apply list_elem_of_filter in Hin; destruct Hin as [_ Hin]
  end;
  lazymatch type of Hin with
  | _ ∈ [] => by apply elem_of_nil in Hin
  | _ = _ => injection Hin as -> ->; cbn; split; [done|lia]
  | _ => apply Hl in Hin; destruct Hin; split; [done|lia]
  end.

(** A pending attempt in a map with fresh entries is one of the old map. *)
Ltac inv_attempt Hat :=
  let q := fresh "q" in let n := fresh "n" in let Hq := fresh "Hq" in
  intros q [n Hq];
  repeat match type of Hq with
  | <[?k := _]> _ !! q = _ =>
      destruct (decide (q = k)) as [->|?];
      [ rewrite lookup_insert_eq in Hq; by simplify_eq
      | rewrite lookup_insert_ne in Hq by done ]
  end;
  try (destruct (Hat q (ex_intro _ n Hq)); by simplify_eq).

Ltac use_inv H :=
  destruct H as [Hj Ha Ht Hp Hat Hu Hl];
  unfold pendingAttempt in *; cbn in *.

Ltac split_inv :=
  split; unfold pendingAttempt; cbn; try done.



Ltac inv_unmounted Hu :=
  let Hm := fresh "Hm" in
  intros Hm; destruct (Hu Hm) as [-> ?];
  rewrite ?delete_empty, ?cancel_empty; by auto.

Ltac inv_goal Ha Ht Hp Hat Hu Hl :=
  lazymatch goal with
  | |- forall i, is_Some (_ !! i) -> _ \/ _ => inv_timers Ht
  | |- forall p, is_Some (_ !! p) -> (_ < _)%nat => inv_promise_ids Hp
  | |- forall p, (exists n, _) -> _ => inv_attempt Hat
  | |- forall ty l, _ ∈ _ -> _ => inv_listeners Hl
  | |- _ = false -> _ /\ _ => inv_unmounted Hu
  | |- _ = true -> _ = true => by auto
  | |- _ => idtac
  end.

Ltac solve_inv Ha Ht Hp Hat Hu Hl :=
  solve [split_inv; inv_goal Ha Ht Hp Hat Hu Hl].

Lemma Inv_onHoverStart w : Inv w -> mounted w = true -> Inv (runTask onHoverStart w).
Proof.
  destruct_world w. intros H. use_inv H. intros ->. subst jb.
  rewrite Ha by done.
  destruct (cancel_both _ _ _ Ht) as [E1 E2].
  unfold runTask, onHoverStart. cbn. rewrite ?E1, ?E2.
  destruct ps; cbn.
  2:{ solve_inv Ha Ht Hp Hat Hu Hl. }
  all: destruct lo, ip, th; run_js.
  all: solve_inv Ha Ht Hp Hat Hu Hl.
Qed.

Lemma Inv_onHoverEnd w : Inv w -> mounted w = true -> Inv (runTask onHoverEnd w).
Proof.
  destruct_world w. intros H. use_inv H. intros ->. subst jb.
  rewrite Ha by done.
  destruct (cancel_both _ _ _ Ht) as [E1 E2].
  unfold runTask, onHoverEnd. cbn. rewrite ?E1, ?E2.
  destruct foc; cbn.
  { solve_inv Ha Ht Hp Hat Hu Hl. }
  destruct ps; cbn.
  all: solve_inv Ha Ht Hp Hat Hu Hl.
Qed.

Lemma runTask_isFocusedEffect w :
  runTask isFocusedEffect w =
  if isFocused (props w) then runTask onHoverStart w else runTask onHoverEnd w.
Proof. unfold runTask, isFocusedEffect. cbn. by destruct (isFocused (props w)). Qed.

Lemma Inv_isFocusedEffect w :
  Inv w -> mounted w = true -> Inv (runTask isFocusedEffect w).
Proof.
  intros H Hm. rewrite runTask_isFocusedEffect.
  destruct (isFocused (props w)); auto using Inv_onHoverStart, Inv_onHoverEnd.
Qed.

Lemma Inv_mount p src thenable : Inv (mount p src thenable).
Proof. apply Inv_isFocusedEffect; [by apply Inv_initial|done]. Qed.

Lemma Inv_timer_task w i t :
  Inv w -> timers w !! i = Some t ->
  Inv (runTask (runTimerCallback (callback t)) (set_timers (delete i (timers w)) w)).
Proof.
  destruct_world w. intros H. use_inv H. intros E. subst jb.
  destruct t as [[] d]; unfold runTask; cbn.
  - solve_inv Ha Ht Hp Hat Hu Hl.
  - unfold pauseVideo. cbn. destruct ip; cbn.
    + solve_inv Ha Ht Hp Hat Hu Hl.
    + destruct va; cbn; [destruct rs; cbn|]; solve_inv Ha Ht Hp Hat Hu Hl.
Qed.

Lemma Inv_unmount w :
  Inv w -> Inv (runTask cleanup (set_videoAttached false (set_mounted false w))).
Proof.
  destruct_world w. intros H. use_inv H. subst jb.
  destruct (cancel_both _ _ _ Ht) as [E1 E2].
  unfold runTask, cleanup. cbn. rewrite ?E1, ?E2.
  solve_inv Ha Ht Hp Hat Hu Hl.
Qed.

(** ** Promise reactions *)

(** The reactions touch neither the promise table, nor the job queue, nor
    the listeners. *)
Lemma reaction_frame s w :
  let w' := escaped (reaction s w) in
  promises w' = promises w /\ jobs w' = jobs w /\ mounted w' = mounted w /\
  listeners (video w') = listeners (video w) /\
  nextPromise w' = nextPromise w /\ props w' = props w.
Proof.
  destruct_world w.
  destruct s; unfold reaction, onPlayRejected, onPlaySettled, pauseVideo; cbn.
  - destruct ic; cbn; [destruct va; cbn; [destruct rs|]|]; done.
  - destruct va; cbn; [|done].
    destruct rs; cbn; (destruct ic; cbn; done).
Qed.

Lemma fold_runJob_frame js w :
  let w' := fold_left runJob js w in
  promises w' = promises w /\ jobs w' = jobs w /\ mounted w' = mounted w /\
  listeners (video w') = listeners (video w) /\
  nextPromise w' = nextPromise w /\ props w' = props w.
Proof.
  revert w. induction js as [|s js IH]; intros w; cbn; [done|].
  destruct (IH (runJob w s)) as (-> & -> & -> & -> & -> & ->).
  apply reaction_frame.
Qed.

Lemma runJobs_frame w :
  let w' := runJobs w in
  promises w' = promises w /\ jobs w' = [] /\ mounted w' = mounted w /\
  listeners (video w') = listeners (video w) /\
  nextPromise w' = nextPromise w /\ props w' = props w.
Proof.
  unfold runJobs.
  destruct (fold_runJob_frame (jobs w) (set_jobs [] w)) as (-> & -> & -> & -> & -> & ->).
  by destruct w.
Qed.

(** Settling a promise changes the table as [settled_with] says, whatever
    the reactions then do. *)
Lemma settle_task_promises w p s :
  let w' := runTask (settle p s) w in
  promises w' = settled_with p s (promises w) /\ jobs w' = [].
Proof.
  cbn. unfold runTask.
  destruct (runJobs_frame (escaped (settle p s w))) as (-> & -> & _).
  split; [|done]. destruct_world w. unfold settle, settled_with. cbn.
  destruct (pm !! p) as [[n [s'|] []]|]; done.
Qed.

Lemma listener_task_promises w l e :
  let w' := runTask (runListener l e) w in
  promises w' = settled_with (listenerPromise l) (listenerSettlement l e) (promises w) /\
  jobs w' = [].
Proof.
  cbn. unfold runTask.
  destruct (runJobs_frame (escaped (runListener l e w))) as (-> & -> & _).
  split; [|done]. destruct_world w.
  destruct l as [p|p]; unfold runListener, settle, settled_with; cbn.
  all: destruct (pm !! p) as [[n [s'|] []]|]; done.
Qed.

(** A settlement keeps the invariant; once the component is unmounted it
    also leaves the overlay state alone. *)
Lemma settle_task_Inv w p s :
  Inv w ->
  let w' := runTask (settle p s) w in
  Inv w' /\ mounted w' = mounted w /\
  (mounted w = false -> overlayState w' = overlayState w).
Proof.
  destruct_world w. intros H. use_inv H. subst jb.
  unfold runTask, settle. cbn.
  destruct (pm !! p) as [[n [s'|] c]|] eqn:E; cbn.
  1,3: split; [solve_inv Ha Ht Hp Hat Hu Hl|done].
  assert (p < np)%nat as Hlt by (apply Hp; eauto).
  destruct c; cbn.
  2:{ split; [solve_inv Ha Ht Hp Hat Hu Hl|done]. }
  destruct (Hat p (ex_intro _ n E)) as [-> ->].
  assert (mo = false -> ic = true) as Hc by (intros Hm; by apply Hu).
  destruct s as [|error];
    unfold reaction, onPlayRejected, onPlaySettled, pauseVideo; cbn.
  - destruct ic; cbn; [destruct va; cbn; [destruct rs; cbn|]|].
    1-3: split; [solve_inv Ha Ht Hp Hat Hu Hl|done].
    split; [solve_inv Ha Ht Hp Hat Hu Hl|]. split; [done|].
    intros Hm. by specialize (Hc Hm).
  - destruct va; cbn.
    2:{ split; [solve_inv Ha Ht Hp Hat Hu Hl|done]. }
    destruct rs, ic; cbn.
    1,3: split; [solve_inv Ha Ht Hp Hat Hu Hl|done].
    all: split; [solve_inv Ha Ht Hp Hat Hu Hl|]; split; [done|].
    all: intros Hm; by specialize (Hc Hm).
Qed.

(** The race guard where it works: a settlement that finds
    [isPlayAttemptCancelled] set leaves the overlay state as it is. *)
Lemma settlement_honours_cancellation w p s :
  Inv w ->
  isPlayAttemptCancelled (mutablePlayAttemptState w) = true ->
  overlayState (runTask (settle p s) w) = overlayState w.
Proof.
  destruct_world w. intros H. use_inv H. intros ->. subst jb.
  unfold runTask, settle. cbn.
  destruct (pm !! p) as [[n [s'|] []]|] eqn:E; cbn; try done.
  destruct s as [|error];
    unfold reaction, onPlayRejected, onPlaySettled, pauseVideo; cbn.
  - destruct va; cbn; [destruct rs; cbn|]; done.
  - destruct va; cbn; [destruct rs; cbn|]; done.
Qed.

(** A listener task is a settlement on the world without that listener:
    the reactions do not look at the listeners. *)
Lemma runListener_eq w l e :
  jobs w = [] ->
  runTask (runListener l e) w =
  runTask (settle (listenerPromise l) (listenerSettlement l e))
    (exec (removeEventListener (listenerType l) l) w).
Proof.
  destruct_world w. cbn. intros ->.
  destruct l as [p|p]; unfold runTask, runListener, settle, exec; cbn.
  all: destruct (pm !! p) as [[n [s'|] []]|]; cbn; reflexivity.
Qed.

Lemma Inv_removeEventListener w ty l :
  Inv w -> Inv (exec (removeEventListener ty l) w).
Proof.
  destruct_world w. intros H. use_inv H.
  unfold exec. cbn. solve_inv Ha Ht Hp Hat Hu Hl.
Qed.

Lemma listener_task_Inv w l e :
  Inv w ->
  let w' := runTask (runListener l e) w in
  Inv w' /\ mounted w' = mounted w /\
  (mounted w = false -> overlayState w' = overlayState w).
Proof.
  intros H. cbn. rewrite runListener_eq by apply H.
  pose proof (Inv_removeEventListener w (listenerType l) l H) as H'.
  destruct (settle_task_Inv _ (listenerPromise l) (listenerSettlement l e) H')
    as (HI & Hm & Ho).
  split; [done|]. destruct w; cbn in *. by rewrite Hm.
Qed.

Lemma dispatch_Inv ls e w :
  Inv w ->
  let w' := fold_left (fun w l => runTask (runListener l e) w) ls w in
  Inv w' /\ mounted w' = mounted w /\
  (mounted w = false -> overlayState w' = overlayState w).
Proof.
  revert w. induction ls as [|l ls IH]; intros w H; cbn; [done|].
  destruct (listener_task_Inv w l e H) as (HI & Hm & Ho).
  destruct (IH _ HI) as (HI' & Hm' & Ho').
  split; [done|]. split; [congruence|].
  intros Hf. rewrite Ho' by congruence. auto.
Qed.

(** ** The invariant holds in every reachable state *)

Lemma Inv_step w e : Inv w -> Inv (step w e).
Proof.
  intros H. destruct e; cbn.
  - destruct (mounted w) eqn:Hm; [by apply Inv_onHoverStart|done].
  - destruct (mounted w) eqn:Hm; [by apply Inv_onHoverEnd|done].
  - destruct (mounted w) eqn:Hm; cbn; [|done].
    destruct (negb _); [|done].
    apply Inv_isFocusedEffect; [|by destruct w].
    destruct w; destruct H; by split.
  - destruct (timers w !! i) eqn:E; [by apply Inv_timer_task|done].
  - destruct (promises w !! p) as [[[] [|] ?]|]; try done.
    by apply settle_task_Inv.
  - by apply dispatch_Inv.
  - destruct w as [? ? ? [] ? ? ? ? ? ? ? ? ? ? ?]; destruct H; by split.
  - destruct w as [? ? ? [] ? ? ? ? ? ? ? ? ? ? ?]; destruct H; by split.
  - destruct (mounted w) eqn:Hm; [by apply Inv_unmount|done].
Qed.

Lemma reachable_Inv w : reachable w -> Inv w.
Proof. induction 1; [apply Inv_mount|by apply Inv_step]. Qed.

(** After unmounting nothing changes the overlay state any more. *)
Lemma unmounted_step w e :
  Inv w -> mounted w = false ->
  mounted (step w e) = false /\ overlayState (step w e) = overlayState w.
Proof.
  intros H Hm. destruct e; cbn; rewrite ?Hm; cbn; try done.
  - destruct (inv_unmounted w H Hm) as [-> _]. by rewrite lookup_empty.
  - destruct (promises w !! p) as [[[] [|] ?]|]; try done.
    destruct (settle_task_Inv w p s H) as (_ & -> & Ho). auto.
  - destruct (dispatch_Inv (listenersOf type (video w)) error w H) as (_ & -> & Ho).
    auto.
  - by destruct w as [? ? ? [] ? ? ? ? ? ? ? ? ? ? ?].
  - by destruct w as [? ? ? [] ? ? ? ? ? ? ? ? ? ? ?].
Qed.

Lemma unmounted_run es w :
  Inv w -> mounted w = false -> overlayState (run w es) = overlayState w.
Proof.
  revert w. induction es as [|e es IH]; intros w H Hm; cbn; [done|].
  destruct (unmounted_step w e H Hm) as [Hm' <-].
  apply IH; [by apply Inv_step|done].
Qed.

(** ** Events that cannot start a hover never show the loading state *)

Ltac no_loading Hq :=
  let i := fresh "i" in let t := fresh "t" in let Hi := fresh "Hi" in
  intros i t Hi;
  repeat match type of Hi with
  | cancel _ _ !! _ = Some _ => apply cancel_Some in Hi
  | delete _ _ !! _ = Some _ =>
      apply lookup_delete_Some in Hi; destruct Hi as [_ Hi]
  | <[_ := _]> _ !! _ = Some _ =>
      apply lookup_insert_Some in Hi; destruct Hi as [[_ <-]|[_ Hi]]; [done|]
  end;
  by apply (Hq i t).

Ltac solve_quiet Hq :=
  solve [split; unfold noLoadingTimer; cbn; [no_loading Hq|done]].

Lemma quiet_pauseVideo w : quiet w -> quiet (escaped (pauseVideo w)).
Proof.
  destruct_world w. intros [Hq Ho]. unfold noLoadingTimer in Hq. cbn in *.
  unfold pauseVideo. cbn.
  destruct ip; cbn; [|destruct va; cbn; [destruct rs; cbn|]]; solve_quiet Hq.
Qed.

Lemma quiet_reaction s w : quiet w -> quiet (escaped (reaction s w)).
Proof.
  destruct_world w. intros [Hq Ho]. unfold noLoadingTimer in Hq. cbn in *.
  destruct s; unfold reaction, onPlayRejected, onPlaySettled, pauseVideo; cbn.
  - destruct ic; cbn; [destruct va; cbn; [destruct rs; cbn|]|]; solve_quiet Hq.
  - destruct va; cbn; [|solve_quiet Hq].
    destruct rs, ic; cbn; solve_quiet Hq.
Qed.

Lemma quiet_runJobs w : quiet w -> quiet (runJobs w).
Proof.
  unfold runJobs. intros H.
  assert (quiet (set_jobs [] w)) as H' by (by destruct w).
  revert H'. generalize (set_jobs [] w). clear H.
  induction (jobs w) as [|s js IH]; intros w' H'; cbn; [done|].
  apply IH. by apply quiet_reaction.
Qed.

Lemma quiet_onHoverEnd w : quiet w -> quiet (runTask onHoverEnd w).
Proof.
  intros H. apply quiet_runJobs. revert H.
  destruct_world w. intros [Hq Ho]. unfold noLoadingTimer in Hq. cbn in *.
  unfold onHoverEnd. cbn.
  destruct foc; cbn; [solve_quiet Hq|].
  destruct va; cbn; [|solve_quiet Hq].
  destruct ps; cbn; solve_quiet Hq.
Qed.

Lemma quiet_settle w p s : quiet w -> quiet (runTask (settle p s) w).
Proof.
  intros H. apply quiet_runJobs. revert H.
  destruct_world w. intros [Hq Ho]. unfold noLoadingTimer in Hq. cbn in *.
  unfold settle. cbn.
  destruct (pm !! p) as [[n [s'|] []]|]; cbn; solve_quiet Hq.
Qed.

Lemma quiet_listener w l e : quiet w -> quiet (runTask (runListener l e) w).
Proof.
  intros H. apply quiet_runJobs. revert H.
  destruct_world w. intros [Hq Ho]. unfold noLoadingTimer in Hq. cbn in *.
  destruct l as [p|p]; unfold runListener, settle; cbn.
  all: destruct (pm !! p) as [[n [s'|] []]|]; cbn; solve_quiet Hq.
Qed.

Lemma quiet_step w e : quiet w -> notHoverStart e -> quiet (step w e).
Proof.
  intros H He. destruct e as [| |[]| | | | | |]; cbn in *; try done.
  - destruct (mounted w); [by apply quiet_onHoverEnd|done].
  - destruct (mounted w); cbn; [|done].
    destruct (isFocused (props w)) eqn:E; cbn; [|done].
    rewrite runTask_isFocusedEffect.
    replace (isFocused (props (set_props _ w))) with false by (by destruct w).
    apply quiet_onHoverEnd. destruct H. by destruct w.
  - destruct (timers w !! i) as [[cb d]|] eqn:E; [|done].
    assert (cb = callPauseVideo) as -> by apply (proj1 H i _ E).
    apply quiet_runJobs. cbn. apply quiet_pauseVideo.
    destruct H as [Hq Ho]. destruct w; split; cbn in *; [|done].
    unfold noLoadingTimer in *. cbn in *. no_loading Hq.
  - destruct (promises w !! p) as [[[] [|] ?]|]; try done.
    by apply quiet_settle.
  - generalize (listenersOf type (video w)). intros ls. revert w H.
    induction ls as [|l ls IH]; intros w H; cbn; [done|].
    apply IH. by apply quiet_listener.
  - destruct H as [Hq Ho]. by destruct w as [? ? ? [] ? ? ? ? ? ? ? ? ? ? ?].
  - destruct H as [Hq Ho]. by destruct w as [? ? ? [] ? ? ? ? ? ? ? ? ? ? ?].
  - destruct (mounted w); [|done].
    apply quiet_runJobs. destruct H as [Hq Ho]. unfold noLoadingTimer in Hq.
    destruct w. cbn in *. unfold cleanup. cbn. solve_quiet Hq.
Qed.

Lemma quiet_run es w : quiet w -> Forall notHoverStart es -> quiet (run w es).
Proof.
  revert w. induction es as [|e es IH]; intros w H Hes; cbn; [done|].
  inversion Hes; subst. apply IH; [by apply quiet_step|done].
Qed.

(** ** Hover events from rest *)

Lemma hover_start_keeps_overlay w :
  Inv w -> mounted w = true ->
  playbackState (video w) <> VIDEO_STATE.playing ->
  mounted (step w HoverStart) = true /\
  overlayState (step w HoverStart) = overlayState w.
Proof.
  intros H. destruct_world w. use_inv H. intros -> Hv. subst jb.
  rewrite Ha by done. unfold runTask, onHoverStart. cbn.
  destruct ps; [|done|]; destruct lo, ip, th; run_js; done.
Qed.

Lemma hover_end_overlay w :
  Inv w -> mounted w = true ->
  let w' := step w HoverEnd in
  (overlayState w' = overlayState w \/
   overlayState w' = HOVER_PLAYER_STATE.paused) /\
  noLoadingTimer w'.
Proof.
  intros H. destruct_world w. use_inv H. intros ->. subst jb.
  rewrite Ha by done.
  destruct (cancel_both _ _ _ Ht) as [E1 E2].
  unfold runTask, onHoverEnd, noLoadingTimer. cbn. rewrite ?E1, ?E2.
  destruct foc; cbn; [|destruct ps; cbn].
  all: split; [by auto|]; intros i t Hi.
  all: try (by rewrite lookup_empty in Hi).
  all: apply lookup_insert_Some in Hi; destruct Hi as [[_ <-]|[_ Hi]]; [done|].
  all: by rewrite lookup_empty in Hi.
Qed.


(** ** Settling through listeners *)

Lemma settled_with_other p q s (pm : gmap nat Promise) :
  p <> q -> settled_with p s pm !! q = pm !! q.
Proof.
  intros Hne. unfold settled_with.
  destruct (pm !! p) as [[n [s'|] c]|]; try done. by rewrite lookup_insert_ne.
Qed.

Lemma settled_with_pending p s n c (pm : gmap nat Promise) :
  pm !! p = Some (mkPromise n None c) ->
  settled_with p s pm !! p = Some (mkPromise n (Some s) c).
Proof. intros E. unfold settled_with. rewrite E. apply lookup_insert_eq. Qed.

(** Listeners of other promises leave promise [p] as it is. *)
Lemma dispatch_other_promises ls e w p :
  Forall (fun l => listenerPromise l <> p) ls ->
  promises (fold_left (fun w l => runTask (runListener l e) w) ls w) !! p =
  promises w !! p.
Proof.
  revert w. induction ls as [|l ls IH]; intros w Hls; cbn; [done|].
  inversion Hls; subst. rewrite IH by done.
  destruct (listener_task_promises w l e) as [-> _].
  by apply settled_with_other.
Qed.

(** The listener of promise [p], run after listeners of other promises,
    settles [p] if it is pending. *)
Lemma dispatch_settles ls l e w n c :
  Forall (fun l' => listenerPromise l' <> listenerPromise l) ls ->
  promises w !! listenerPromise l = Some (mkPromise n None c) ->
  promises (fold_left (fun w l => runTask (runListener l e) w) (ls ++ [l]) w)
    !! listenerPromise l =
  Some (mkPromise n (Some (listenerSettlement l e)) c).
Proof.
  intros Hls E. rewrite fold_left_app. cbn [fold_left].
  destruct (listener_task_promises
              (fold_left (fun w l => runTask (runListener l e) w) ls w) l e)
    as [-> _].
  apply settled_with_pending. by rewrite dispatch_other_promises.
Qed.

Lemma playing_listeners (ls : list (string * Listener)) p :
  (filter (fun x => fst x = "playing"%string)
     ((ls ++ [("playing"%string, onVideoPlaybackStarted p)]) ++
      [("error"%string, onVideoPlaybackFailed p)])).*2 =
  (filter (fun x => fst x = "playing"%string) ls).*2 ++ [onVideoPlaybackStarted p].
Proof.
  rewrite !filter_app, !fmap_app.
  rewrite (filter_cons_True _ ("playing"%string, _)) by done.
  rewrite (filter_cons_False _ ("error"%string, _)) by done.
  rewrite !filter_nil. cbn. by rewrite app_nil_r.
Qed.

Lemma error_listeners (ls : list (string * Listener)) p :
  (filter (fun x => fst x = "error"%string)
     ((ls ++ [("playing"%string, onVideoPlaybackStarted p)]) ++
      [("error"%string, onVideoPlaybackFailed p)])).*2 =
  (filter (fun x => fst x = "error"%string) ls).*2 ++ [onVideoPlaybackFailed p].
Proof.
  rewrite !filter_app, !fmap_app.
  rewrite (filter_cons_False _ ("playing"%string, _)) by done.
  rewrite (filter_cons_True _ ("error"%string, _)) by done.
  rewrite !filter_nil. cbn. by rewrite app_nil_r.
Qed.

Lemma listenersOf_old type (ls : list (string * Listener)) n :
  (forall ty l, (ty, l) ∈ ls -> ty = listenerType l /\ (listenerPromise l < n)%nat) ->
  Forall (fun l => listenerPromise l <> n)
    (snd <$> filter (fun x => fst x = type) ls).
Proof.
  intros Hl. apply Forall_forall. intros l Hin.
  apply list_elem_of_fmap in Hin as ([ty l'] & -> & Hin).
  apply list_elem_of_filter in Hin as [_ Hin].
  apply Hl in Hin as [_ Hlt]. cbn. lia.
Qed.


(** ** The model at work

    The scenario of a slow start: the loading timeout runs 200 ms after the
    hover started and shows the loading state, and the fulfilment of the
    play promise then shows the video.  After a hover-end on the playing
    video, the pause timer pauses the element and rewinds it. *)
Example slow_start_shows_loading_then_playing :
  let w1 := step hovered (TimerExpired 1%nat) in
  let w2 := step w1 (PlaySettled 1%nat Fulfilled) in
  let w3 := step (step w2 (VideoStateChanged VIDEO_STATE.playing)) (TimeUpdate 1500) in
  let w4 := step (step w3 HoverEnd) (TimerExpired 2%nat) in
  overlayState hovered = HOVER_PLAYER_STATE.paused /\
  overlayState w1 = HOVER_PLAYER_STATE.loading /\
  overlayState w2 = HOVER_PLAYER_STATE.playing /\
  overlayState w4 = HOVER_PLAYER_STATE.paused /\
  pauseCalls (video w4) = 1%nat /\
  currentTime (video w4) = 0.
Proof. vm_compute. repeat split. Qed.

(** * The claims *)

(** ** C1: hover-end while a play attempt is in progress *)

(** Claim C1 (the code departs from it).  The claim: when [onHoverEnd] is
    issued while a play attempt is in progress, the phase is Paused once the
    play promise settles and Playing is never entered.  On the player
    [hovered] the attempt is in progress; [onHoverEnd] sets the phase to
    Paused and schedules [pauseVideo] 400 ms later, but records nothing in
    [isPlayAttemptCancelled]: only [pauseVideo] writes that flag.  When the
    play promise is fulfilled before that timer runs, the [.then] handler
    finds the flag clear and sets the phase to Playing; the timer then
    pauses the element and the phase stays Playing.  When the timer runs
    first, the flag is recorded and the phase stays Paused. *)
Theorem hover_end_then_early_resolution_plays :
  let w1 := step hovered HoverEnd in
  let w2 := step w1 (PlaySettled 1%nat Fulfilled) in
  let w3 := step w2 (TimerExpired 2%nat) in
  let w2' := step w1 (TimerExpired 2%nat) in
  let w3' := step w2' (PlaySettled 1%nat Fulfilled) in
  isPlayAttemptInProgress (mutablePlayAttemptState hovered) = true /\
  overlayState w1 = HOVER_PLAYER_STATE.paused /\
  isPlayAttemptInProgress (mutablePlayAttemptState w1) = true /\
  isPlayAttemptCancelled (mutablePlayAttemptState w1) = false /\
  timers w1 = {[ 2%nat := mkTimer callPauseVideo 400 ]} /\
  overlayState w2 = HOVER_PLAYER_STATE.playing /\
  overlayState w3 = HOVER_PLAYER_STATE.playing /\
  pauseCalls (video w3) = 1%nat /\
  isPlayAttemptCancelled (mutablePlayAttemptState w2') = true /\
  overlayState w3' = HOVER_PLAYER_STATE.paused /\
  pauseCalls (video w3') = 1%nat.
Proof. vm_compute. repeat split. Qed.

(** ** C2: a rejected play promise *)

(** Claim C2 (the code departs from it).  The claim: when the play promise
    rejects, the failure is logged, the phase reverts to Paused, Playing is
    never entered and the error is not propagated.  The reactions are
    attached as [playVideo().catch(h1).then(h2)], so after [h1] has logged
    the failure and paused the element, [h2] runs as well; with the pointer
    still over the player the cancelled flag is clear and [h2] sets the
    phase to Playing.  The failure is logged and nothing is thrown. *)
Theorem rejected_play_ends_playing :
  let w1 := step idle HoverStart in
  let w2 := step w1 (PlaySettled 1%nat (Rejected "NotAllowedError")) in
  overlayState w1 = HOVER_PLAYER_STATE.paused /\
  isPlayAttemptInProgress (mutablePlayAttemptState w1) = true /\
  console w2 = [playbackFailedMessage "video.mp4" "NotAllowedError"] /\
  uncaught w2 = [] /\
  isPlayAttemptInProgress (mutablePlayAttemptState w2) = false /\
  pauseCalls (video w2) = 1%nat /\
  overlayState w2 = HOVER_PLAYER_STATE.playing.
Proof. vm_compute. repeat split. Qed.

(** ** C3: one play attempt at a time *)

(** Claim C3.  In every reachable state at most one play attempt is
    pending, and a pending attempt has [isPlayAttemptInProgress] set.  An
    [onHoverStart] delivered while [isPlayAttemptInProgress] is set does
    not call [play()] and creates no promise; in the attempt state it only
    clears [isPlayAttemptCancelled]. *)
Theorem single_play_attempt (w : World) :
  reachable w ->
  (forall p q, pendingAttempt w p -> pendingAttempt w q -> p = q) /\
  (forall p, pendingAttempt w p ->
     isPlayAttemptInProgress (mutablePlayAttemptState w) = true) /\
  (mounted w = true ->
   isPlayAttemptInProgress (mutablePlayAttemptState w) = true ->
   let w' := step w HoverStart in
   playCalls (video w') = playCalls (video w) /\
   promises w' = promises w /\
   mutablePlayAttemptState w' =
     mkAttempt (playPromise (mutablePlayAttemptState w)) true false).
Proof.
  intros Hr. pose proof (reachable_Inv w Hr) as H. split; [|split].
  - intros p q Hp Hq.
    destruct (inv_attempt w H p Hp) as [_ <-].
    by destruct (inv_attempt w H q Hq) as [_ <-].
  - intros p Hp. by destruct (inv_attempt w H p Hp).
  - destruct_world w. use_inv H. intros -> ->. subst jb.
    rewrite Ha by done. unfold runTask, onHoverStart. cbn.
    destruct ps; cbn; [destruct lo; cbn| |destruct lo; cbn]; done.
Qed.

Lemma single_play_attempt_witness :
  reachable hovered /\
  pendingAttempt hovered 1%nat /\
  mounted hovered = true /\
  isPlayAttemptInProgress (mutablePlayAttemptState hovered) = true /\
  (forall p q, pendingAttempt hovered p -> pendingAttempt hovered q -> p = q) /\
  playCalls (video (step hovered HoverStart)) = playCalls (video hovered) /\
  promises (step hovered HoverStart) = promises hovered /\
  mutablePlayAttemptState (step hovered HoverStart) = mkAttempt 1%nat true false.
Proof.
  assert (reachable hovered) as Hr
    by (unfold hovered, idle; repeat apply reachable_step; apply reachable_mount).
  destruct (single_play_attempt hovered Hr) as (H1 & H2 & H3).
  split; [exact Hr|]. split; [exists true; vm_compute; reflexivity|].
  split; [reflexivity|]. split; [reflexivity|]. split; [exact H1|].
  apply H3; reflexivity.
Defined.

(** ** C4: a quick hover *)

(** X21.  The half of claim C4 that the code keeps.  A hover starts from
    rest: the phase is Paused and the element is not already playing (so
    that [onHoverStart] reaches the loading timeout at all).  When
    [onHoverEnd] follows [onHoverStart] before the loading timeout has
    run, whatever playback state the element has reached in between, the
    phase is Paused after either call, no loading timeout is left
    pending, and no later event other than a new hover start brings the
    phase to Loading. *)
Theorem quick_hover_never_loads (w : World) (vs : VIDEO_STATE.t) (es : list Event) :
  reachable w ->
  mounted w = true ->
  overlayState w = HOVER_PLAYER_STATE.paused ->
  playbackState (video w) <> VIDEO_STATE.playing ->
  Forall notHoverStart es ->
  let w1 := step w HoverStart in
  let w2 := step (step w1 (VideoStateChanged vs)) HoverEnd in
  overlayState w1 = HOVER_PLAYER_STATE.paused /\
  overlayState w2 = HOVER_PLAYER_STATE.paused /\
  noLoadingTimer w2 /\
  overlayState (run w2 es) <> HOVER_PLAYER_STATE.loading.
Proof.
  intros Hr Hm Ho Hv Hes w1 w2.
  pose proof (reachable_Inv w Hr) as H.
  destruct (hover_start_keeps_overlay w H Hm Hv) as [Hm1 Ho1].
  fold w1 in Hm1, Ho1. rewrite Ho in Ho1.
  set (w1' := step w1 (VideoStateChanged vs)) in *.
  assert (Inv w1') as H1' by (do 2 apply Inv_step; done).
  assert (mounted w1' = true /\ overlayState w1' = HOVER_PLAYER_STATE.paused)
    as [Hm1' Ho1'].
  { subst w1'. revert Hm1 Ho1. generalize w1.
    by intros [? ? ? [] ? ? ? ? ? ? ? ? ? ? ?]. }
  destruct (hover_end_overlay w1' H1' Hm1') as [Ho2 Hq2]. fold w2 in Ho2, Hq2.
  assert (overlayState w2 = HOVER_PLAYER_STATE.paused) as Ho2'
    by (destruct Ho2; congruence).
  repeat split; try done.
  apply quiet_run; [|done]. split; [done|]. by rewrite Ho2'.
Qed.

Lemma quick_hover_never_loads_witness :
  let w1 := step idle HoverStart in
  let w2 := step (step w1 (VideoStateChanged VIDEO_STATE.other)) HoverEnd in
  let es := [PlaySettled 1%nat Fulfilled; TimerExpired 2%nat] in
  reachable idle /\
  mounted idle = true /\
  overlayState idle = HOVER_PLAYER_STATE.paused /\
  playbackState (video idle) <> VIDEO_STATE.playing /\
  Forall notHoverStart es /\
  timers w1 = {[ 1%nat := mkTimer showLoadingState 200 ]} /\
  overlayState w1 = HOVER_PLAYER_STATE.paused /\
  overlayState w2 = HOVER_PLAYER_STATE.paused /\
  noLoadingTimer w2 /\
  overlayState (run w2 es) <> HOVER_PLAYER_STATE.loading.
Proof.
  intros w1 w2 es.
  assert (reachable idle) as Hr by apply reachable_mount.
  assert (playbackState (video idle) <> VIDEO_STATE.playing) as Hv
    by (vm_compute; discriminate).
  assert (Forall notHoverStart es) as Hes by (repeat constructor).
  split; [exact Hr|]. split; [reflexivity|]. split; [reflexivity|].
  split; [exact Hv|]. split; [exact Hes|]. split; [vm_compute; reflexivity|].
  exact (quick_hover_never_loads idle VIDEO_STATE.other es
           Hr eq_refl eq_refl Hv Hes).
Defined.

(** Claim C4 (the code departs from it).  The claim: when [onHoverEnd]
    follows [onHoverStart] before the loading timeout has run, the phase
    Loading is never entered and the final phase is Paused.  On the player
    [idle] the hover start leaves the loading timeout pending and the
    hover end cancels it, so Loading is never entered.  But the play
    attempt of the hover start is still in progress and [onHoverEnd]
    records nothing in [isPlayAttemptCancelled].  When the element has
    left its paused state, [onHoverEnd] sets the phase to Paused and
    defers [pauseVideo]; the fulfilment of the play promise then sets the
    phase to Playing, and the pause timer pauses the element under it.
    When the element still reports paused, [onHoverEnd] returns at its
    guard; the fulfilment sets the phase to Playing and nothing pauses the
    element.  Either way the final phase is Playing with no timer left. *)
Theorem quick_hover_ends_playing :
  let w1 := step idle HoverStart in
  let w2 := step (step w1 (VideoStateChanged VIDEO_STATE.other)) HoverEnd in
  let w3 := step w2 (PlaySettled 1%nat Fulfilled) in
  let w4 := step w3 (TimerExpired 2%nat) in
  let v2 := step w1 HoverEnd in
  let v3 := step v2 (PlaySettled 1%nat Fulfilled) in
  overlayState idle = HOVER_PLAYER_STATE.paused /\
  timers w1 = {[ 1%nat := mkTimer showLoadingState 200 ]} /\
  overlayState w1 = HOVER_PLAYER_STATE.paused /\
  overlayState w2 = HOVER_PLAYER_STATE.paused /\
  timers w2 = {[ 2%nat := mkTimer callPauseVideo 400 ]} /\
  isPlayAttemptCancelled (mutablePlayAttemptState w2) = false /\
  overlayState w3 = HOVER_PLAYER_STATE.playing /\
  overlayState w4 = HOVER_PLAYER_STATE.playing /\
  pauseCalls (video w4) = 1%nat /\
  timers w4 = ∅ /\
  isPlayAttemptInProgress (mutablePlayAttemptState w4) = false /\
  overlayState v2 = HOVER_PLAYER_STATE.paused /\
  timers v2 = ∅ /\
  isPlayAttemptCancelled (mutablePlayAttemptState v2) = false /\
  overlayState v3 = HOVER_PLAYER_STATE.playing /\
  pauseCalls (video v3) = 0%nat /\
  timers v3 = ∅ /\
  isPlayAttemptInProgress (mutablePlayAttemptState v3) = false.
Proof. vm_compute. repeat split. Qed.

(** ** C5: what onHoverEnd does *)

(** Claim C5.  [onHoverEnd] cancels every pending timer.  When [isFocused]
    is set or the element is paused it does nothing else.  Otherwise it
    sets the phase to Paused at once and schedules [pauseVideo], as the
    only pending timer, after [overlayFadeTransitionDuration] when a paused
    overlay is given and after 0 when none is; the element itself is not
    touched yet. *)
Theorem onHoverEnd_effect (w : World) :
  reachable w ->
  mounted w = true ->
  let n := nextTimer w in
  let d := if pausedOverlay (props w)
           then overlayFadeTransitionDuration (props w) else 0 in
  step w HoverEnd =
  if isFocused (props w)
     || bool_decide (playbackState (video w) = VIDEO_STATE.paused)
  then set_timers ∅ w
  else set_pauseTimeoutRef (Some n)
         (set_nextTimer (S n)
            (set_timers {[ n := mkTimer callPauseVideo d ]}
               (set_overlayState HOVER_PLAYER_STATE.paused w))).
Proof.
  intros Hr. pose proof (reachable_Inv w Hr) as H.
  destruct_world w. use_inv H. intros ->. subst jb.
  rewrite Ha by done.
  destruct (cancel_both _ _ _ Ht) as [E1 E2].
  unfold runTask, onHoverEnd. cbn. rewrite ?E1, ?E2.
  destruct foc; cbn; [done|]. destruct ps; cbn; done.
Qed.

Lemma onHoverEnd_effect_witness :
  reachable hovered /\
  mounted hovered = true /\
  timers hovered = {[ 1%nat := mkTimer showLoadingState 200 ]} /\
  step hovered HoverEnd =
  set_pauseTimeoutRef (Some 2%nat)
    (set_nextTimer 3%nat
       (set_timers {[ 2%nat := mkTimer callPauseVideo 400 ]}
          (set_overlayState HOVER_PLAYER_STATE.paused hovered))).
Proof.
  assert (reachable hovered) as Hr
    by (unfold hovered, idle; repeat apply reachable_step; apply reachable_mount).
  split; [exact Hr|]. split; [reflexivity|]. split; [vm_compute; reflexivity|].
  exact (onHoverEnd_effect hovered Hr eq_refl).
Defined.

(** ** C6: onHoverStart on an element that is already playing *)

(** Claim C6.  When the element reports that it is playing, [onHoverStart]
    cancels the pending timers, clears [isPlayAttemptCancelled], sets the
    phase to Playing and does nothing else: no loading timeout is
    scheduled, [play()] is not called and no promise is created. *)
Theorem onHoverStart_already_playing (w : World) :
  reachable w ->
  mounted w = true ->
  playbackState (video w) = VIDEO_STATE.playing ->
  let a := mutablePlayAttemptState w in
  step w HoverStart =
  set_overlayState HOVER_PLAYER_STATE.playing
    (set_mutablePlayAttemptState
       (mkAttempt (playPromise a) (isPlayAttemptInProgress a) false)
       (set_timers ∅ w)).
Proof.
  intros Hr. pose proof (reachable_Inv w Hr) as H.
  destruct_world w. use_inv H. intros -> ->. subst jb.
  rewrite Ha by done.
  destruct (cancel_both _ _ _ Ht) as [E1 E2].
  unfold runTask, onHoverStart. cbn. by rewrite ?E1, ?E2.
Qed.

Lemma onHoverStart_already_playing_witness :
  let w := step (step (step idle HoverStart) (PlaySettled 1%nat Fulfilled))
             (VideoStateChanged VIDEO_STATE.playing) in
  reachable w /\
  mounted w = true /\
  playbackState (video w) = VIDEO_STATE.playing /\
  step w HoverStart =
  set_overlayState HOVER_PLAYER_STATE.playing
    (set_mutablePlayAttemptState (mkAttempt 1%nat false false)
       (set_timers ∅ w)).
Proof.
  intros w.
  assert (reachable w) as Hr
    by (unfold w, idle; repeat apply reachable_step; apply reachable_mount).
  split; [exact Hr|]. split; [reflexivity|]. split; [reflexivity|].
  exact (onHoverStart_already_playing w Hr eq_refl eq_refl).
Defined.

(** ** C7: teardown *)

(** Claim C7.  Unmounting cancels the loading timeout and the pause
    timeout, so that no timer is left pending, and sets
    [isPlayAttemptCancelled].  Whatever happens afterwards, a late
    fulfilment or rejection of the play promise included, the phase never
    changes again. *)
Theorem unmount_freezes_overlay (w : World) (es : list Event) :
  reachable w ->
  mounted w = true ->
  let w1 := step w Unmount in
  timers w1 = ∅ /\
  isPlayAttemptCancelled (mutablePlayAttemptState w1) = true /\
  overlayState (run w1 es) = overlayState w.
Proof.
  intros Hr Hm w1. pose proof (reachable_Inv w Hr) as H.
  assert (Inv w1) as H1 by (by apply Inv_step).
  assert (timers w1 = ∅ /\
          isPlayAttemptCancelled (mutablePlayAttemptState w1) = true /\
          mounted w1 = false /\ overlayState w1 = overlayState w)
    as (Ht1 & Hc1 & Hm1 & Ho1).
  { subst w1. clear H1 Hr. destruct_world w. use_inv H. subst mo jb.
    destruct (cancel_both _ _ _ Ht) as [E1 E2].
    unfold runTask, cleanup. cbn. by rewrite ?E1, ?E2. }
  repeat split; try done.
  rewrite <- Ho1. by apply unmounted_run.
Qed.

Lemma unmount_freezes_overlay_witness :
  let w1 := step hovered Unmount in
  let es := [PlaySettled 1%nat Fulfilled] in
  reachable hovered /\
  mounted hovered = true /\
  timers hovered = {[ 1%nat := mkTimer showLoadingState 200 ]} /\
  promises (run w1 es) !! 1%nat = Some (mkPromise true (Some Fulfilled) true) /\
  timers w1 = ∅ /\
  isPlayAttemptCancelled (mutablePlayAttemptState w1) = true /\
  overlayState (run w1 es) = overlayState hovered.
Proof.
  intros w1 es.
  assert (reachable hovered) as Hr
    by (unfold hovered, idle; repeat apply reachable_step; apply reachable_mount).
  split; [exact Hr|]. split; [reflexivity|]. split; [vm_compute; reflexivity|].
  split; [vm_compute; reflexivity|].
  exact (unmount_freezes_overlay hovered es Hr eq_refl).
Defined.

(** ** C8: the playback position after a pause *)

(** Claim C8.  When no play attempt is in progress, [pauseVideo] pauses the
    element; it then resets the playback position to 0 when
    [shouldRestartOnVideoStopped] is set and leaves the position as it is
    otherwise. *)
Theorem pauseVideo_position (w : World) :
  isPlayAttemptInProgress (mutablePlayAttemptState w) = false ->
  videoAttached w = true ->
  let w' := exec pauseVideo w in
  fst (pauseVideo w) = Normal tt /\
  pauseCalls (video w') = S (pauseCalls (video w)) /\
  currentTime (video w') =
    (if shouldRestartOnVideoStopped (props w) then 0
     else currentTime (video w)).
Proof.
  destruct_world w. cbn. intros -> ->.
  unfold exec, pauseVideo. cbn. by destruct rs.
Qed.

Lemma pauseVideo_position_witness :
  let w := step (step (step idle HoverStart) (PlaySettled 1%nat Fulfilled))
             (TimeUpdate 1500) in
  let w' := exec pauseVideo w in
  isPlayAttemptInProgress (mutablePlayAttemptState w) = false /\
  videoAttached w = true /\
  currentTime (video w) = 1500 /\
  fst (pauseVideo w) = Normal tt /\
  pauseCalls (video w') = S (pauseCalls (video w)) /\
  currentTime (video w') = 0.
Proof.
  intros w w'.
  split; [reflexivity|]. split; [reflexivity|]. split; [reflexivity|].
  exact (pauseVideo_position w eq_refl eq_refl).
Defined.

(** ** C9: the asset parser *)

(** Claim C9.  A single string becomes a one-element list whose element
    has that string as its [src]; an array of N items becomes a list of
    length N whose i-th element is the i-th item in the canonical shape (a
    string item turned into an object with that [src], an object item as
    it is), so the order of the input is kept.  This holds for the video
    sources and for the caption tracks alike. *)
Theorem asset_parser_shapes :
  (forall s,
     AssetParser.formatVideoSrc (AssetParser.Single (AssetParser.ItemString s))
     = [AssetParser.mkVideoSource s None]) /\
  (forall s,
     AssetParser.formatVideoCaptions (AssetParser.Single (AssetParser.ItemString s))
     = [AssetParser.mkVideoCaptionsTrack s None None]) /\
  (forall l,
     length (AssetParser.formatVideoSrc (AssetParser.Array l)) = length l /\
     AssetParser.src <$> AssetParser.formatVideoSrc (AssetParser.Array l)
     = AssetParser.sourceSrc <$> l /\
     forall i o, l !! i = Some (AssetParser.ItemObject o) ->
       AssetParser.formatVideoSrc (AssetParser.Array l) !! i = Some o) /\
  (forall l,
     length (AssetParser.formatVideoCaptions (AssetParser.Array l)) = length l /\
     AssetParser.track_src <$> AssetParser.formatVideoCaptions (AssetParser.Array l)
     = AssetParser.trackSrc <$> l /\
     forall i o, l !! i = Some (AssetParser.ItemObject o) ->
       AssetParser.formatVideoCaptions (AssetParser.Array l) !! i = Some o).
Proof.
  unfold AssetParser.formatVideoSrc, AssetParser.formatVideoCaptions,
    AssetParser.format.
  split; [done|]. split; [done|]. split; intros l.
  all: split; [apply length_map|].
  all: split; [|intros i o E; change (map ?f l) with (f <$> l);
                 by rewrite list_lookup_fmap, E].
  all: change (map ?f l) with (f <$> l); rewrite <- list_fmap_compose.
  all: apply list_fmap_ext; by intros i [s|o].
Qed.

(** ** C10: playVideo always hands back a promise *)

(** Claim C10.  On a mounted component [playVideo] calls [play()] once and
    returns a promise that is new and pending, and keeps it in
    [playPromise].  Where [play()] returns a promise, that promise is
    returned and the browser's settlement settles it.  Where [play()]
    returns none, [playVideo] makes a promise of its own and registers a
    ['playing'] and an ['error'] listener on the element: the element's
    next ['playing'] event fulfils that promise, and its next ['error']
    event rejects it with the error of the event. *)
Theorem playVideo_returns_promise (w : World) :
  reachable w ->
  mounted w = true ->
  exists p : PromiseId,
    fst (playVideo w) = Normal p /\
    let w' := exec playVideo w in
    playPromise (mutablePlayAttemptState w') = p /\
    promises w !! p = None /\
    playCalls (video w') = S (playCalls (video w)) /\
    if playIsThenable (video w) then
      promises w' !! p = Some (mkPromise true None false) /\
      forall s, promises (step w' (PlaySettled p s)) !! p =
                Some (mkPromise true (Some s) false)
    else
      promises w' !! p = Some (mkPromise false None false) /\
      listeners (video w') =
        listeners (video w) ++ [("playing"%string, onVideoPlaybackStarted p);
                                ("error"%string, onVideoPlaybackFailed p)] /\
      (forall e, promises (step w' (VideoEvent "playing" e)) !! p =
                 Some (mkPromise false (Some Fulfilled) false)) /\
      (forall e, promises (step w' (VideoEvent "error" e)) !! p =
                 Some (mkPromise false (Some (Rejected e)) false)).
Proof.
  intros Hr. pose proof (reachable_Inv w Hr) as H.
  destruct_world w. use_inv H. intros ->. subst jb. rewrite Ha by done.
  assert (pm !! np = None) as Hfresh.
  { destruct (pm !! np) eqn:E; [|done].
    assert (np < np)%nat by (apply Hp; eauto). lia. }
  exists np. unfold exec, playVideo. destruct th; cbn.
  - repeat split; try done.
    + apply lookup_insert_eq.
    + intros s. rewrite lookup_insert_eq.
      match goal with |- promises (runTask _ ?w0) !! _ = _ =>
        destruct (settle_task_promises w0 np s) as [-> _] end.
      cbn. apply settled_with_pending, lookup_insert_eq.
  - repeat split; try done.
    + apply lookup_insert_eq.
    + by rewrite <- app_assoc.
    + intros e. rewrite playing_listeners.
      apply (dispatch_settles _ (onVideoPlaybackStarted np)).
      * by apply listenersOf_old.
      * apply lookup_insert_eq.
    + intros e. rewrite error_listeners.
      apply (dispatch_settles _ (onVideoPlaybackFailed np)).
      * by apply listenersOf_old.
      * apply lookup_insert_eq.
Qed.

Lemma playVideo_returns_promise_witness :
  reachable idleNoPromise /\
  mounted idleNoPromise = true /\
  playIsThenable (video idleNoPromise) = false /\
  exists p : PromiseId,
    fst (playVideo idleNoPromise) = Normal p /\
    let w' := exec playVideo idleNoPromise in
    playPromise (mutablePlayAttemptState w') = p /\
    promises idleNoPromise !! p = None /\
    playCalls (video w') = S (playCalls (video idleNoPromise)) /\
    promises w' !! p = Some (mkPromise false None false) /\
    listeners (video w') =
      listeners (video idleNoPromise) ++
      [("playing"%string, onVideoPlaybackStarted p);
       ("error"%string, onVideoPlaybackFailed p)] /\
    (forall e, promises (step w' (VideoEvent "playing" e)) !! p =
               Some (mkPromise false (Some Fulfilled) false)) /\
    (forall e, promises (step w' (VideoEvent "error" e)) !! p =
               Some (mkPromise false (Some (Rejected e)) false)).
Proof.
  assert (reachable idleNoPromise) as Hr by apply reachable_mount.
  split; [exact Hr|]. split; [reflexivity|]. split; [reflexivity|].
  exact (playVideo_returns_promise idleNoPromise Hr eq_refl).
Defined.


(** * Further invariants *)

(** ** The timer table *)

Lemma cancel_singleton r i (t : Timer) :
  cancel r {[ i := t ]} = ∅ \/ cancel r {[ i := t ]} = {[ i := t ]}.
Proof.
  destruct r as [j|]; cbn; [|by right].
  destruct (decide (j = i)) as [->|Hne].
  - left. apply delete_singleton_eq.
  - right. by apply delete_singleton_ne.
Qed.

Lemma Inv2_initial p v : Inv2 (initialWorld p v).
Proof. split; cbn; try done. by apply no_timer. Qed.

Ltac use_inv2 H2 :=
  destruct H2 as [Htt Hlo Hla Hc]; cbn in *.

Ltac table :=
  first [ by apply no_timer
        | by eapply loading_timer
        | by eapply pause_timer ].

Ltac solve_inv2 := solve [split; cbn; [table|try done; by auto ..]].

(** [onHoverStart] needs nothing of the old timers: it cancels them. *)
Lemma Inv2_onHoverStart w :
  Inv w -> mounted w = true ->
  (overlayState w = HOVER_PLAYER_STATE.loading -> loadingOverlay (props w) = true) ->
  (overlayState w = HOVER_PLAYER_STATE.loading ->
   isPlayAttemptInProgress (mutablePlayAttemptState w) = true) ->
  Inv2 (runTask onHoverStart w).
Proof.
  destruct_world w. intros H. use_inv H. intros -> Hlo Hla. subst jb.
  rewrite Ha by done.
  destruct (cancel_both _ _ _ Ht) as [E1 E2].
  unfold runTask, onHoverStart. cbn. rewrite ?E1, ?E2.
  destruct ps; cbn.
  2:{ solve_inv2. }
  all: destruct lo, ip, th; run_js.
  all: solve_inv2.
Qed.

Lemma Inv2_onHoverEnd w :
  Inv w -> mounted w = true ->
  (overlayState w = HOVER_PLAYER_STATE.loading -> loadingOverlay (props w) = true) ->
  (overlayState w = HOVER_PLAYER_STATE.loading ->
   isPlayAttemptInProgress (mutablePlayAttemptState w) = true) ->
  (isPlayAttemptCancelled (mutablePlayAttemptState w) = true ->
   overlayState w <> HOVER_PLAYER_STATE.loading /\ isFocused (props w) = false) ->
  Inv2 (runTask onHoverEnd w).
Proof.
  destruct_world w. intros H. use_inv H. intros -> Hlo Hla Hc. subst jb.
  rewrite Ha by done.
  destruct (cancel_both _ _ _ Ht) as [E1 E2].
  unfold runTask, onHoverEnd. cbn. rewrite ?E1, ?E2.
  destruct foc; cbn; [solve_inv2|].
  destruct ps; cbn; try solve_inv2.
  all: split; cbn; [table|try done ..].
  all: intros _ Hic; by destruct (Hc Hic).
Qed.

Lemma Inv2_isFocusedEffect w b :
  Inv w -> Inv2 w -> mounted w = true ->
  Inv2 (runTask isFocusedEffect (set_props (set_isFocused b (props w)) w)).
Proof.
  intros H H2 Hm. rewrite runTask_isFocusedEffect.
  assert (Inv (set_props (set_isFocused b (props w)) w)) as H'
    by (destruct w; destruct H; by split).
  destruct w as [[foc po lo ld fd rs] os att v va ptr ltr tm nt pm np jb co mo un].
  use_inv2 H2. subst mo. destruct b; cbn.
  - apply Inv2_onHoverStart; cbn; auto.
  - apply Inv2_onHoverEnd; cbn; auto.
    intros Hic. destruct (Hc eq_refl Hic). auto.
Qed.

Lemma Inv2_mount p src thenable : Inv2 (mount p src thenable).
Proof.
  unfold mount. rewrite runTask_isFocusedEffect.
  pose proof (Inv_initial p (newVideoElement src thenable) eq_refl) as H.
  destruct (isFocused (props _)).
  - by apply Inv2_onHoverStart.
  - by apply Inv2_onHoverEnd.
Qed.

Lemma Inv2_timer_task w i t :
  Inv w -> Inv2 w -> timers w !! i = Some t ->
  Inv2 (runTask (runTimerCallback (callback t)) (set_timers (delete i (timers w)) w)).
Proof.
  destruct_world w. intros H H2. use_inv H. use_inv2 H2. intros E. subst jb.
  destruct Htt as [Et|j Et ? ? ? ?|j Et ? ? ?]; cbn in *; subst tm.
  - by rewrite lookup_empty in E.
  - apply lookup_singleton_Some in E as [-> <-]. rewrite delete_singleton_eq.
    subst. unfold runTask. cbn. split; cbn; [table|try done ..].
  - apply lookup_singleton_Some in E as [-> <-]. rewrite delete_singleton_eq.
    subst. unfold runTask, pauseVideo. cbn.
    destruct ip; cbn; [|destruct va; cbn; [destruct rs; cbn|]].
    all: split; cbn; [table|try done ..].
Qed.

(** What is left of a timer table when the loading timer is cancelled. *)
Lemma TimerTable_cancel_loading pr os att v va ptr ltr tm nt pm np jb co mo un
    os' att' v' pm' jb' co' un' :
  TimerTable (mkWorld pr os att v va ptr ltr tm nt pm np jb co mo un) ->
  os' = os \/ os' <> HOVER_PLAYER_STATE.loading ->
  TimerTable (mkWorld pr os' att' v' va ptr ltr (cancel ltr tm) nt pm' np jb' co' mo un').
Proof.
  intros [Et|j Et Er ? ? ?|j Et ? ? Hne] Ho; cbn in *; subst tm.
  - rewrite cancel_empty. by apply no_timer.
  - subst ltr. cbn. rewrite delete_singleton_eq. by apply no_timer.
  - match goal with |- context [cancel ltr {[j := ?t]}] =>
      destruct (cancel_singleton ltr j t) as [->| ->] end.
    + by apply no_timer.
    + eapply pause_timer; cbn; try done. by destruct Ho as [->|?].
Qed.

Lemma cancel_idemp r (m : gmap nat Timer) : cancel r (cancel r m) = cancel r m.
Proof. destruct r; cbn; [|done]. apply delete_delete_eq. Qed.

Ltac table_after_cancel Htt :=
  lazymatch goal with
  | |- TimerTable _ =>
      eapply TimerTable_cancel_loading; [exact Htt|first [by left|by right]]
  end.

Lemma Inv2_settle_task w p s :
  Inv w -> Inv2 w -> Inv2 (runTask (settle p s) w).
Proof.
  destruct_world w. intros H H2. use_inv H. use_inv2 H2. subst jb.
  unfold runTask, settle. cbn.
  destruct (pm !! p) as [[n [s'|] c]|] eqn:E; cbn.
  1,3: split; cbn; [destruct Htt; cbn in *; table|done ..].
  destruct c; cbn.
  2:{ split; cbn; [destruct Htt; cbn in *; table|done ..]. }
  destruct (Hat p (ex_intro _ n E)) as [-> ->].
  assert (mo = true -> ic = true -> os <> HOVER_PLAYER_STATE.loading) as Hos
    by (intros Hm Hic; by destruct (Hc Hm Hic)).
  destruct s as [|error];
    unfold reaction, onPlayRejected, onPlaySettled, pauseVideo; cbn.
  - destruct ic; cbn; [destruct va; cbn; [destruct rs; cbn|]|].
    all: split; cbn; try done.
    all: try table_after_cancel Htt.
    all: intros Hm Hlg; exfalso; by apply (Hos Hm eq_refl).
  - destruct va; cbn; [destruct rs, ic; cbn|].
    all: split; cbn; try done.
    all: rewrite ?cancel_idemp.
    all: try table_after_cancel Htt.
    all: try (intros Hm Hlg; exfalso; by apply (Hos Hm eq_refl)).
    intros Hm. by specialize (Ha Hm).
Qed.

Lemma Inv2_removeEventListener w ty l :
  Inv2 w -> Inv2 (exec (removeEventListener ty l) w).
Proof.
  destruct_world w. intros H2. use_inv2 H2.
  unfold exec. cbn. split; cbn; [destruct Htt; cbn in *; table|done ..].
Qed.

Lemma Inv2_listener_task w l e :
  Inv w -> Inv2 w -> Inv2 (runTask (runListener l e) w).
Proof.
  intros H H2. rewrite runListener_eq by apply H.
  apply Inv2_settle_task.
  - by apply Inv_removeEventListener.
  - by apply Inv2_removeEventListener.
Qed.

Lemma Inv2_dispatch ls e w :
  Inv w -> Inv2 w ->
  Inv2 (fold_left (fun w l => runTask (runListener l e) w) ls w).
Proof.
  revert w. induction ls as [|l ls IH]; intros w H H2; cbn; [done|].
  apply IH.
  - by apply listener_task_Inv.
  - by apply Inv2_listener_task.
Qed.

Lemma Inv2_unmount w :
  Inv w -> Inv2 w ->
  Inv2 (runTask cleanup (set_videoAttached false (set_mounted false w))).
Proof.
  destruct_world w. intros H H2. use_inv H. use_inv2 H2. subst jb.
  destruct (cancel_both _ _ _ Ht) as [E1 E2].
  unfold runTask, cleanup. cbn. rewrite ?E1, ?E2.
  split; cbn; [table|done ..].
Qed.

Lemma Inv2_step w e : Inv w -> Inv2 w -> Inv2 (step w e).
Proof.
  intros H H2. destruct e; cbn.
  - destruct (mounted w) eqn:Hm; [|done].
    apply Inv2_onHoverStart; try done; destruct H2; auto.
  - destruct (mounted w) eqn:Hm; [|done].
    apply Inv2_onHoverEnd; try done; destruct H2; auto.
  - destruct (mounted w) eqn:Hm; cbn; [|done].
    destruct (negb _); [|done]. by apply Inv2_isFocusedEffect.
  - destruct (timers w !! i) eqn:E; [by apply Inv2_timer_task|done].
  - destruct (promises w !! p) as [[[] [|] ?]|]; try done.
    by apply Inv2_settle_task.
  - by apply Inv2_dispatch.
  - destruct w as [? ? ? [] ? ? ? ? ? ? ? ? ? ? ?]. destruct H2 as [Htt ? ? ?].
    split; cbn in *; [destruct Htt; cbn in *; table|done ..].
  - destruct w as [? ? ? [] ? ? ? ? ? ? ? ? ? ? ?]. destruct H2 as [Htt ? ? ?].
    split; cbn in *; [destruct Htt; cbn in *; table|done ..].
  - destruct (mounted w) eqn:Hm; [by apply Inv2_unmount|done].
Qed.

Lemma reachable_Inv2 w : reachable w -> Inv2 w.
Proof.
  induction 1 as [|w e Hr IH]; [apply Inv2_mount|].
  apply Inv2_step; [by apply reachable_Inv|done].
Qed.

(** ** Playing undisturbed *)

Lemma playing_listeners_started w l :
  Inv w -> l ∈ listenersOf "playing" (video w) ->
  exists p, l = onVideoPlaybackStarted p.
Proof.
  intros H Hin. unfold listenersOf in Hin.
  apply list_elem_of_fmap in Hin as ([ty l'] & -> & Hin).
  apply list_elem_of_filter in Hin as [Hty Hin]. cbn in *. subst ty.
  apply (inv_listeners w H) in Hin as [Hty _].
  destruct l' as [p|p]; [by exists p|done].
Qed.

Ltac no_pause Hq :=
  let i := fresh "i" in let t := fresh "t" in let Hi := fresh "Hi" in
  intros i t Hi;
  repeat match type of Hi with
  | cancel _ _ !! _ = Some _ => apply cancel_Some in Hi
  | delete _ _ !! _ = Some _ =>
      apply lookup_delete_Some in Hi; destruct Hi as [_ Hi]
  | <[_ := _]> _ !! _ = Some _ =>
      apply lookup_insert_Some in Hi; destruct Hi as [[_ <-]|[_ Hi]]; [done|]
  | ∅ !! _ = Some _ => by rewrite lookup_empty in Hi
  end;
  by apply (Hq i t).

Ltac solve_calm Hq :=
  solve [split; [split; [done|split; [done|unfold noPauseTimer; cbn; no_pause Hq]]|done]].

(** A fulfilment that finds no cancellation recorded does not touch the
    element. *)
Lemma calm_settle_fulfilled w p :
  Inv w -> calm w ->
  calm (runTask (settle p Fulfilled) w) /\
  video (runTask (settle p Fulfilled) w) = video w /\
  props (runTask (settle p Fulfilled) w) = props w.
Proof.
  destruct_world w. intros H. use_inv H. intros (Hm & Hic & Hq).
  unfold noPauseTimer in Hq. cbn in *. subst jb mo ic.
  unfold runTask, settle. cbn.
  destruct (pm !! p) as [[n [s'|] []]|]; cbn; solve_calm Hq.
Qed.

Lemma calm_listener_started w p e :
  Inv w -> calm w ->
  calm (runTask (runListener (onVideoPlaybackStarted p) e) w) /\
  pauseCalls (video (runTask (runListener (onVideoPlaybackStarted p) e) w))
  = pauseCalls (video w) /\
  props (runTask (runListener (onVideoPlaybackStarted p) e) w) = props w.
Proof.
  intros H Hc. rewrite runListener_eq by apply H. cbn [listenerPromise
    listenerSettlement listenerType].
  assert (calm (exec (removeEventListener "playing" (onVideoPlaybackStarted p)) w)) as Hc'
    by (destruct w as [? ? ? [] ? ? ? ? ? ? ? ? ? ? ?]; exact Hc).
  destruct (calm_settle_fulfilled _ p
              (Inv_removeEventListener w "playing" (onVideoPlaybackStarted p) H) Hc')
    as (Hc'' & -> & ->).
  split; [done|]. by destruct w as [? ? ? [] ? ? ? ? ? ? ? ? ? ? ?].
Qed.

Lemma calm_dispatch_playing ls e w :
  Inv w -> calm w ->
  Forall (fun l => exists p, l = onVideoPlaybackStarted p) ls ->
  let w' := fold_left (fun w l => runTask (runListener l e) w) ls w in
  calm w' /\ pauseCalls (video w') = pauseCalls (video w) /\
  props w' = props w.
Proof.
  revert w. induction ls as [|l ls IH]; intros w H Hc Hls; cbn; [done|].
  inversion Hls as [|? ? [p ->] Hls']; subst.
  destruct (calm_listener_started w p e H Hc) as (Hc' & <- & <-).
  apply IH; [|done|done]. by apply listener_task_Inv.
Qed.

(** One event that does not stop the video keeps the player calm and does
    not call [pause()]. *)
Lemma calm_step w e focused :
  Inv w -> calm w ->
  (focused = true -> isFocused (props w) = true) ->
  noStop focused e ->
  calm (step w e) /\
  pauseCalls (video (step w e)) = pauseCalls (video w) /\
  (focused = true -> isFocused (props (step w e)) = true).
Proof.
  intros H Hc Hf He. destruct e as [| |b|i|p [|error]|type error|vs|t|]; cbn in *;
    try done.
  - (* HoverStart *)
    revert H Hc Hf. destruct_world w. intros H. use_inv H.
    intros (Hm & Hic & Hq) Hf. cbn in *. subst jb mo ic. rewrite Ha by done.
    destruct (cancel_both _ _ _ Ht) as [E1 E2].
    unfold runTask, onHoverStart, calm, noPauseTimer. cbn. rewrite ?E1, ?E2.
    destruct ps; cbn; [destruct lo, ip, th; run_js| |destruct lo, ip, th; run_js].
    all: split; [split; [done|split; [done|]]|done].
    all: intros i t Hi; try (by rewrite lookup_empty in Hi).
    all: apply lookup_insert_Some in Hi; destruct Hi as [[_ <-]|[_ Hi]]; [done|].
    all: by rewrite lookup_empty in Hi.
  - (* HoverEnd, ignored because isFocused forces play *)
    subst focused. specialize (Hf eq_refl).
    revert H Hc Hf. destruct_world w. intros H. use_inv H.
    intros (Hm & Hic & Hq) Hf. cbn in *. subst jb mo ic foc.
    destruct (cancel_both _ _ _ Ht) as [E1 E2].
    unfold runTask, onHoverEnd, calm, noPauseTimer. cbn. rewrite ?E1, ?E2.
    split; [split; [done|split; [done|]]|done].
    intros i t Hi. by rewrite lookup_empty in Hi.
  - (* SetIsFocused true *)
    subst b. destruct Hc as (Hm & Hic & Hq). rewrite Hm. cbn.
    destruct (isFocused (props w)) eqn:Ef; cbn; [done|].
    rewrite runTask_isFocusedEffect.
    revert H Hic Hq Hf Hm Ef. destruct_world w. intros H. use_inv H.
    intros Hic Hq Hf Hm Ef. cbn in *. subst jb mo ic foc. rewrite Ha by done.
    destruct (cancel_both _ _ _ Ht) as [E1 E2].
    unfold runTask, onHoverStart, calm, noPauseTimer. cbn. rewrite ?E1, ?E2.
    destruct ps; cbn; [destruct lo, ip, th; run_js| |destruct lo, ip, th; run_js].
    all: split; [split; [done|split; [done|]]|done].
    all: intros i t Hi; try (by rewrite lookup_empty in Hi).
    all: apply lookup_insert_Some in Hi; destruct Hi as [[_ <-]|[_ Hi]]; [done|].
    all: by rewrite lookup_empty in Hi.
  - (* TimerExpired: only a loading timer can be pending *)
    destruct (timers w !! i) as [[cb d]|] eqn:E; [|done].
    destruct Hc as (Hm & Hic & Hq).
    assert (cb = showLoadingState) as -> by apply (Hq i _ E).
    revert H Hm Hic Hq Hf. clear E. destruct_world w. intros H. use_inv H.
    intros Hm Hic Hq Hf. unfold noPauseTimer in Hq. cbn in *. subst jb.
    unfold runTask, calm, noPauseTimer. cbn.
    split; [split; [done|split; [done|no_pause Hq]]|done].
  - (* PlaySettled Fulfilled *)
    destruct (promises w !! p) as [[[] [|] ?]|]; try done.
    destruct (calm_settle_fulfilled w p H Hc) as (Hc' & -> & ->). auto.
  - (* VideoEvent "playing" *)
    subst type.
    destruct (calm_dispatch_playing (listenersOf "playing" (video w)) error w H Hc)
      as (Hc' & Hp & Hpr).
    { apply Forall_forall. intros l Hl. by apply (playing_listeners_started w). }
    cbn in Hpr. rewrite Hpr. auto.
  - (* VideoStateChanged *)
    revert Hc Hf. destruct w as [? ? ? [] ? ? ? ? ? ? ? ? ? ? ?]. by intros (? & ? & ?).
  - revert Hc Hf. destruct w as [? ? ? [] ? ? ? ? ? ? ? ? ? ? ?]. by intros (? & ? & ?).
Qed.

Lemma calm_run es w focused :
  Inv w -> calm w ->
  (focused = true -> isFocused (props w) = true) ->
  Forall (noStop focused) es ->
  calm (run w es) /\
  pauseCalls (video (run w es)) = pauseCalls (video w).
Proof.
  revert w. induction es as [|e es IH]; intros w H Hc Hf Hes; cbn; [done|].
  inversion Hes; subst.
  destruct (calm_step w e focused H Hc Hf) as (Hc' & <- & Hf'); [done|].
  apply IH; [by apply Inv_step|done ..].
Qed.

Lemma calm_after_hover_start w :
  Inv w -> mounted w = true ->
  calm (step w HoverStart) /\
  pauseCalls (video (step w HoverStart)) = pauseCalls (video w) /\
  props (step w HoverStart) = props w.
Proof.
  destruct_world w. intros H. use_inv H. intros ->. subst jb. rewrite Ha by done.
  destruct (cancel_both _ _ _ Ht) as [E1 E2].
  unfold runTask, onHoverStart, calm, noPauseTimer. cbn. rewrite ?E1, ?E2.
  destruct ps; cbn; [destruct lo, ip, th; run_js| |destruct lo, ip, th; run_js].
  all: split; [split; [done|split; [done|]]|done].
  all: intros i t Hi; try (by rewrite lookup_empty in Hi).
  all: apply lookup_insert_Some in Hi; destruct Hi as [[_ <-]|[_ Hi]]; [done|].
  all: by rewrite lookup_empty in Hi.
Qed.

(** In a reachable state with [isFocused] set no cancellation is recorded
    and no pause timer is pending. *)
Lemma calm_when_focused w :
  Inv2 w -> mounted w = true -> isFocused (props w) = true -> calm w.
Proof.
  intros [Htt _ _ Hc] Hm Hf. split; [done|]. split.
  - destruct (isPlayAttemptCancelled _) eqn:E; [|done].
    destruct (Hc Hm eq_refl) as [_ Hf']. congruence.
  - intros i t Hi. destruct Htt as [Et|j Et ? ? ? ?|j Et ? Hf' ?].
    + by rewrite Et, lookup_empty in Hi.
    + rewrite Et in Hi. by apply lookup_singleton_Some in Hi as [_ <-].
    + congruence.
Qed.

(** * Further properties of the component *)

(** ** One timer at a time *)

(** X1.  In every reachable state at most one timer is pending.  It is
    either the loading timer, held in [loadingStateTimeoutRef], with the
    delay [loadingStateTimeoutDuration], pending only while a loading
    overlay is given and a play attempt is in progress that is not
    cancelled; or the pause timer, held in [pauseTimeoutRef], with the
    delay [overlayFadeTransitionDuration] (0 without a paused overlay),
    pending only while [isFocused] is false and the phase is not Loading. *)
Theorem one_timer_at_a_time (w : World) :
  reachable w ->
  timers w = ∅ \/
  (exists i : nat,
     timers w =
       {[ i := mkTimer showLoadingState (loadingStateTimeoutDuration (props w)) ]} /\
     loadingStateTimeoutRef w = Some i /\
     loadingOverlay (props w) = true /\
     isPlayAttemptInProgress (mutablePlayAttemptState w) = true /\
     isPlayAttemptCancelled (mutablePlayAttemptState w) = false) \/
  (exists i : nat,
     timers w = {[ i := mkTimer callPauseVideo (pauseDelay (props w)) ]} /\
     pauseTimeoutRef w = Some i /\
     isFocused (props w) = false /\
     overlayState w <> HOVER_PLAYER_STATE.loading).
Proof.
  intros Hr. destruct (inv2_timers w (reachable_Inv2 w Hr)) as [E|i E|i E].
  - by left.
  - right. left. by exists i.
  - right. right. by exists i.
Qed.

Lemma one_timer_at_a_time_witness :
  reachable hovered /\
  timers hovered = {[ 1%nat := mkTimer showLoadingState 200 ]} /\
  (timers hovered = ∅ \/
   (exists i : nat,
      timers hovered =
        {[ i := mkTimer showLoadingState (loadingStateTimeoutDuration (props hovered)) ]} /\
      loadingStateTimeoutRef hovered = Some i /\
      loadingOverlay (props hovered) = true /\
      isPlayAttemptInProgress (mutablePlayAttemptState hovered) = true /\
      isPlayAttemptCancelled (mutablePlayAttemptState hovered) = false) \/
   (exists i : nat,
      timers hovered = {[ i := mkTimer callPauseVideo (pauseDelay (props hovered)) ]} /\
      pauseTimeoutRef hovered = Some i /\
      isFocused (props hovered) = false /\
      overlayState hovered <> HOVER_PLAYER_STATE.loading)).
Proof.
  assert (reachable hovered) as Hr
    by (unfold hovered, idle; repeat apply reachable_step; apply reachable_mount).
  split; [exact Hr|]. split; [vm_compute; reflexivity|].
  exact (one_timer_at_a_time hovered Hr).
Defined.

(** ** The loading state *)

(** X2.  The phase is Loading only when a loading overlay is given, and,
    as long as the component is mounted, only while a play attempt is in
    progress that is not cancelled. *)
Theorem loading_only_during_attempt (w : World) :
  reachable w ->
  overlayState w = HOVER_PLAYER_STATE.loading ->
  loadingOverlay (props w) = true /\
  (mounted w = true ->
   isPlayAttemptInProgress (mutablePlayAttemptState w) = true /\
   isPlayAttemptCancelled (mutablePlayAttemptState w) = false).
Proof.
  intros Hr Ho. destruct (reachable_Inv2 w Hr) as [_ Hlo Hla Hc].
  split; [auto|]. intros Hm. split; [auto|].
  destruct (isPlayAttemptCancelled _) eqn:E; [|done].
  by destruct (Hc Hm eq_refl).
Qed.

Lemma loading_only_during_attempt_witness :
  let w := step hovered (TimerExpired 1%nat) in
  reachable w /\
  overlayState w = HOVER_PLAYER_STATE.loading /\
  mounted w = true /\
  loadingOverlay (props w) = true /\
  isPlayAttemptInProgress (mutablePlayAttemptState w) = true /\
  isPlayAttemptCancelled (mutablePlayAttemptState w) = false.
Proof.
  intros w.
  assert (reachable w) as Hr
    by (unfold w, hovered, idle; repeat apply reachable_step; apply reachable_mount).
  destruct (loading_only_during_attempt w Hr eq_refl) as [H1 H2].
  destruct (H2 eq_refl) as [H3 H4].
  repeat split; assumption || reflexivity.
Defined.

(** X3.  The loading overlay is rendered with opacity 1 exactly in the
    phase Loading, so no reachable state is in that phase without showing
    it; and whenever it has opacity 1, the paused overlay, if one is
    rendered, has opacity 1 as well. *)
Theorem loading_overlay_shown (w : World) :
  reachable w ->
  (overlayState w = HOVER_PLAYER_STATE.loading <-> loadingOverlayOpacity w = Some 1) /\
  (loadingOverlayOpacity w = Some 1 -> pausedOverlayOpacity w <> Some 0).
Proof.
  intros Hr. pose proof (inv2_loading_overlay w (reachable_Inv2 w Hr)) as Hlo.
  unfold loadingOverlayOpacity, pausedOverlayOpacity.
  destruct (overlayState w), (loadingOverlay (props w)), (pausedOverlay (props w)).
  all: split; [split; intros E; try done; by specialize (Hlo eq_refl)|done].
Qed.

Lemma loading_overlay_shown_witness :
  let w := step hovered (TimerExpired 1%nat) in
  reachable w /\
  loadingOverlayOpacity w = Some 1 /\
  pausedOverlayOpacity w = Some 1 /\
  (overlayState w = HOVER_PLAYER_STATE.loading <-> loadingOverlayOpacity w = Some 1) /\
  (loadingOverlayOpacity w = Some 1 -> pausedOverlayOpacity w <> Some 0).
Proof.
  intros w.
  assert (reachable w) as Hr
    by (unfold w, hovered, idle; repeat apply reachable_step; apply reachable_mount).
  split; [exact Hr|]. split; [reflexivity|]. split; [reflexivity|].
  exact (loading_overlay_shown w Hr).
Defined.

(** ** Nothing but a stop event pauses the video *)

(** X4.  After a hover start, no sequence of further hover starts, timer
    expiries, fulfilled play promises, ['playing'] events, playback
    changes and [isFocused] turning true calls [pause()]; with [isFocused]
    set, hover ends may be among the events as well. *)
Theorem hovering_never_pauses (w : World) (es : list Event) :
  reachable w ->
  mounted w = true ->
  Forall (noStop (isFocused (props w))) es ->
  let w' := run (step w HoverStart) es in
  pauseCalls (video w') = pauseCalls (video w) /\
  isPlayAttemptCancelled (mutablePlayAttemptState w') = false.
Proof.
  intros Hr Hm Hes w'. pose proof (reachable_Inv w Hr) as H.
  destruct (calm_after_hover_start w H Hm) as (Hc & Hp & Hpr).
  destruct (calm_run es (step w HoverStart) (isFocused (props w))) as [Hc' Hp'];
    [by apply Inv_step|done|by rewrite Hpr|done|].
  subst w'. split; [congruence|]. by destruct Hc' as (_ & ? & _).
Qed.

Lemma hovering_never_pauses_witness :
  let es := [TimerExpired 1%nat; PlaySettled 1%nat Fulfilled;
             VideoStateChanged VIDEO_STATE.playing; HoverStart] in
  let w' := run (step idle HoverStart) es in
  reachable idle /\
  mounted idle = true /\
  Forall (noStop (isFocused (props idle))) es /\
  overlayState w' = HOVER_PLAYER_STATE.playing /\
  pauseCalls (video w') = pauseCalls (video idle) /\
  isPlayAttemptCancelled (mutablePlayAttemptState w') = false.
Proof.
  intros es w'.
  assert (reachable idle) as Hr by apply reachable_mount.
  assert (Forall (noStop (isFocused (props idle))) es) as Hes
    by (repeat constructor).
  split; [exact Hr|]. split; [reflexivity|]. split; [exact Hes|].
  split; [vm_compute; reflexivity|].
  exact (hovering_never_pauses idle es Hr eq_refl Hes).
Defined.

(** X5.  While [isFocused] is set, no hover end, timer expiry, fulfilled
    play promise, ['playing'] event or playback change calls [pause()]: the
    events that would normally stop the video are ignored. *)
Theorem forced_play_never_pauses (w : World) (es : list Event) :
  reachable w ->
  mounted w = true ->
  isFocused (props w) = true ->
  Forall (noStop true) es ->
  pauseCalls (video (run w es)) = pauseCalls (video w) /\
  isPlayAttemptCancelled (mutablePlayAttemptState (run w es)) = false.
Proof.
  intros Hr Hm Hf Hes.
  pose proof (calm_when_focused w (reachable_Inv2 w Hr) Hm Hf) as Hc.
  destruct (calm_run es w true (reachable_Inv w Hr) Hc) as [Hc' Hp]; [done|done|].
  split; [done|]. by destruct Hc' as (_ & ? & _).
Qed.

Lemma forced_play_never_pauses_witness :
  let w := step hovered (SetIsFocused true) in
  let es := [HoverEnd; PlaySettled 1%nat Fulfilled; HoverEnd; TimerExpired 3%nat] in
  reachable w /\
  mounted w = true /\
  isFocused (props w) = true /\
  Forall (noStop true) es /\
  overlayState (run w es) = HOVER_PLAYER_STATE.playing /\
  pauseCalls (video (run w es)) = pauseCalls (video w) /\
  isPlayAttemptCancelled (mutablePlayAttemptState (run w es)) = false.
Proof.
  intros w es.
  assert (reachable w) as Hr
    by (unfold w, hovered, idle; repeat apply reachable_step; apply reachable_mount).
  assert (Forall (noStop true) es) as Hes by (repeat constructor).
  split; [exact Hr|]. split; [reflexivity|]. split; [reflexivity|].
  split; [exact Hes|]. split; [vm_compute; reflexivity|].
  exact (forced_play_never_pauses w es Hr eq_refl eq_refl Hes).
Defined.

(** ** When the play promise settles *)

Lemma no_loading_after_cancel w :
  TimerTable w -> forall i t,
  cancel (loadingStateTimeoutRef w) (timers w) !! i = Some t ->
  callback t = callPauseVideo.
Proof.
  intros [Et|j Et Er ? ? ?|j Et ? ? ?] i t Hi; rewrite Et in Hi.
  - by rewrite cancel_empty, lookup_empty in Hi.
  - rewrite Er in Hi. cbn in Hi.
    by rewrite delete_singleton_eq, lookup_empty in Hi.
  - apply cancel_Some in Hi. by apply lookup_singleton_Some in Hi as [_ <-].
Qed.

(** X6.  When the browser fulfils the play promise of an attempt that is
    not cancelled, the phase becomes Playing, the attempt is no longer in
    progress, the element is left alone and no loading timer stays
    pending. *)
Theorem fulfilled_attempt_plays (w : World) (p : PromiseId) :
  reachable w ->
  promises w !! p = Some (mkPromise true None true) ->
  isPlayAttemptCancelled (mutablePlayAttemptState w) = false ->
  let w' := step w (PlaySettled p Fulfilled) in
  overlayState w' = HOVER_PLAYER_STATE.playing /\
  mutablePlayAttemptState w' = mkAttempt p false false /\
  video w' = video w /\
  noLoadingTimer w'.
Proof.
  intros Hr E Hic.
  pose proof (reachable_Inv w Hr) as H.
  pose proof (inv2_timers w (reachable_Inv2 w Hr)) as Htt.
  pose proof (no_loading_after_cancel w Htt) as Hq. clear Htt Hr.
  revert E Hic Hq. destruct_world w. use_inv H. intros E -> Hq. subst jb.
  destruct (Hat p (ex_intro _ true E)) as [-> ->].
  unfold noLoadingTimer. cbn. rewrite E. unfold runTask, settle. cbn. rewrite E.
  cbn. unfold onPlaySettled. cbn. done.
Qed.

Lemma fulfilled_attempt_plays_witness :
  let w' := step hovered (PlaySettled 1%nat Fulfilled) in
  reachable hovered /\
  promises hovered !! 1%nat = Some (mkPromise true None true) /\
  isPlayAttemptCancelled (mutablePlayAttemptState hovered) = false /\
  overlayState w' = HOVER_PLAYER_STATE.playing /\
  mutablePlayAttemptState w' = mkAttempt 1%nat false false /\
  video w' = video hovered /\
  noLoadingTimer w'.
Proof.
  intros w'.
  assert (reachable hovered) as Hr
    by (unfold hovered, idle; repeat apply reachable_step; apply reachable_mount).
  assert (promises hovered !! 1%nat = Some (mkPromise true None true)) as E
    by (vm_compute; reflexivity).
  split; [exact Hr|]. split; [exact E|]. split; [reflexivity|].
  exact (fulfilled_attempt_plays hovered 1%nat Hr E eq_refl).
Defined.

(** X7.  On a mounted component, when the browser fulfils the play promise
    of an attempt on which a cancellation was recorded, the phase is left
    as it is (and is not Loading), the flag is cleared, [pause()] is called
    once and the playback position is reset to 0 when
    [shouldRestartOnVideoStopped] is set and kept otherwise; [play()] is
    not called and nothing is thrown. *)
Theorem cancelled_attempt_pauses (w : World) (p : PromiseId) :
  reachable w ->
  mounted w = true ->
  promises w !! p = Some (mkPromise true None true) ->
  isPlayAttemptCancelled (mutablePlayAttemptState w) = true ->
  let w' := step w (PlaySettled p Fulfilled) in
  overlayState w' = overlayState w /\
  overlayState w' <> HOVER_PLAYER_STATE.loading /\
  mutablePlayAttemptState w' = mkAttempt p false false /\
  pauseCalls (video w') = S (pauseCalls (video w)) /\
  playCalls (video w') = playCalls (video w) /\
  currentTime (video w') =
    (if shouldRestartOnVideoStopped (props w) then 0 else currentTime (video w)) /\
  uncaught w' = uncaught w.
Proof.
  intros Hr Hm E Hic.
  pose proof (reachable_Inv w Hr) as H.
  destruct (inv2_cancelled w (reachable_Inv2 w Hr) Hm Hic) as [Hos _]. clear Hr.
  revert Hm E Hic Hos. destruct_world w. use_inv H. intros -> E -> Hos. subst jb.
  rewrite Ha by done.
  destruct (Hat p (ex_intro _ true E)) as [-> ->].
  cbn. rewrite E. unfold runTask, settle. cbn. rewrite E.
  cbn. unfold onPlaySettled, pauseVideo. cbn. by destruct rs.
Qed.

Lemma cancelled_attempt_pauses_witness :
  let w := step (step hovered HoverEnd) (TimerExpired 2%nat) in
  let w' := step w (PlaySettled 1%nat Fulfilled) in
  reachable w /\
  mounted w = true /\
  promises w !! 1%nat = Some (mkPromise true None true) /\
  isPlayAttemptCancelled (mutablePlayAttemptState w) = true /\
  overlayState w' = overlayState w /\
  overlayState w' <> HOVER_PLAYER_STATE.loading /\
  mutablePlayAttemptState w' = mkAttempt 1%nat false false /\
  pauseCalls (video w') = S (pauseCalls (video w)) /\
  playCalls (video w') = playCalls (video w) /\
  currentTime (video w') = 0 /\
  uncaught w' = uncaught w.
Proof.
  intros w w'.
  assert (reachable w) as Hr
    by (unfold w, hovered, idle; repeat apply reachable_step; apply reachable_mount).
  assert (promises w !! 1%nat = Some (mkPromise true None true)) as E
    by (vm_compute; reflexivity).
  split; [exact Hr|]. split; [reflexivity|]. split; [exact E|].
  split; [reflexivity|].
  exact (cancelled_attempt_pauses w 1%nat Hr eq_refl E eq_refl).
Defined.

(** X8.  When the browser rejects the play promise of an attempt on a
    mounted component, the failure is logged once, naming the element's
    [currentSrc] and the error; nothing is thrown, the attempt is no longer
    in progress with its flag clear, [pause()] is called (twice when a
    cancellation was recorded), [play()] is not called again and no
    loading timer stays pending. *)
Theorem rejected_attempt_is_logged (w : World) (p : PromiseId) (error : string) :
  reachable w ->
  mounted w = true ->
  promises w !! p = Some (mkPromise true None true) ->
  let w' := step w (PlaySettled p (Rejected error)) in
  console w' = console w ++ [playbackFailedMessage (currentSrc (video w)) error] /\
  uncaught w' = uncaught w /\
  mutablePlayAttemptState w' = mkAttempt p false false /\
  pauseCalls (video w') =
    (if isPlayAttemptCancelled (mutablePlayAttemptState w)
     then S (S (pauseCalls (video w))) else S (pauseCalls (video w))) /\
  playCalls (video w') = playCalls (video w) /\
  noLoadingTimer w'.
Proof.
  intros Hr Hm E.
  pose proof (reachable_Inv w Hr) as H.
  pose proof (inv2_timers w (reachable_Inv2 w Hr)) as Htt.
  pose proof (no_loading_after_cancel w Htt) as Hq. clear Htt Hr.
  revert Hm E Hq. destruct_world w. use_inv H. intros -> E Hq. subst jb.
  rewrite Ha by done.
  destruct (Hat p (ex_intro _ true E)) as [-> ->].
  unfold noLoadingTimer. cbn. rewrite E. unfold runTask, settle. cbn. rewrite E.
  cbn. unfold onPlayRejected, onPlaySettled, pauseVideo. cbn.
  destruct rs, ic; cbn; rewrite ?cancel_idemp; done.
Qed.

Lemma rejected_attempt_is_logged_witness :
  let w' := step hovered (PlaySettled 1%nat (Rejected "NotSupportedError")) in
  reachable hovered /\
  mounted hovered = true /\
  promises hovered !! 1%nat = Some (mkPromise true None true) /\
  console w' =
    console hovered ++ [playbackFailedMessage (currentSrc (video hovered)) "NotSupportedError"] /\
  uncaught w' = uncaught hovered /\
  mutablePlayAttemptState w' = mkAttempt 1%nat false false /\
  pauseCalls (video w') = 1%nat /\
  playCalls (video w') = playCalls (video hovered) /\
  noLoadingTimer w'.
Proof.
  intros w'.
  assert (reachable hovered) as Hr
    by (unfold hovered, idle; repeat apply reachable_step; apply reachable_mount).
  assert (promises hovered !! 1%nat = Some (mkPromise true None true)) as E
    by (vm_compute; reflexivity).
  split; [exact Hr|]. split; [reflexivity|]. split; [exact E|].
  exact (rejected_attempt_is_logged hovered 1%nat "NotSupportedError" Hr eq_refl E).
Defined.

(** ** When the element is paused *)

Lemma pausedSafely_trans w1 w2 w3 :
  pausedSafely w1 w2 -> pausedSafely w2 w3 -> pausedSafely w1 w3.
Proof.
  intros [H1|[H1 H1']] [H2|[H2 H2']]; unfold pausedSafely.
  - by left.
  - left. congruence.
  - by left.
  - right. split; congruence.
Qed.

Lemma pausedSafely_settle w p s :
  jobs w = [] -> pausedSafely w (runTask (settle p s) w).
Proof.
  destruct_world w. cbn. intros ->. unfold pausedSafely, runTask, settle. cbn.
  destruct (pm !! p) as [[n [s'|] []]|]; cbn; try (by right).
  left. destruct s; unfold onPlayRejected, onPlaySettled, pauseVideo; cbn.
  - destruct ic; cbn; [destruct va; cbn; [destruct rs; cbn|]|]; done.
  - destruct va; cbn; [|done]. destruct rs, ic; cbn; done.
Qed.

Lemma pausedSafely_dispatch ls e w :
  Inv w ->
  pausedSafely w (fold_left (fun w l => runTask (runListener l e) w) ls w).
Proof.
  revert w. induction ls as [|l ls IH]; intros w H; cbn; [by right|].
  eapply pausedSafely_trans; [|apply IH; by apply listener_task_Inv].
  rewrite runListener_eq by apply H.
  eapply pausedSafely_trans; [|apply pausedSafely_settle; by destruct w, H].
  right. by destruct w as [? ? ? [] ? ? ? ? ? ? ? ? ? ? ?].
Qed.

Lemma hover_end_video w :
  Inv w -> mounted w = true -> video (runTask onHoverEnd w) = video w.
Proof.
  destruct_world w. intros H. use_inv H. intros ->. subst jb. rewrite Ha by done.
  unfold runTask, onHoverEnd. cbn. destruct foc; cbn; [done|]. by destruct ps.
Qed.

Lemma Inv_set_isFocused w b :
  Inv w -> Inv (set_props (set_isFocused b (props w)) w).
Proof. intros H. destruct w; destruct H; by split. Qed.

(** One event either leaves the pause count alone or ends with no attempt
    in progress. *)
Lemma pause_count_step w e :
  Inv w ->
  pauseCalls (video (step w e)) = pauseCalls (video w) \/
  isPlayAttemptInProgress (mutablePlayAttemptState (step w e)) = false.
Proof.
  intros H. destruct e; cbn.
  - destruct (mounted w) eqn:Hm; [|by left].
    left. destruct (calm_after_hover_start w H Hm) as (_ & Hp & _).
    cbn in Hp. by rewrite Hm in Hp.
  - destruct (mounted w) eqn:Hm; [|by left].
    left. by rewrite hover_end_video.
  - destruct (mounted w) eqn:Hm; cbn; [|by left].
    destruct (negb _); [|by left]. left.
    rewrite runTask_isFocusedEffect.
    pose proof (Inv_set_isFocused w b H) as H'.
    assert (mounted (set_props (set_isFocused b (props w)) w) = true) as Hm'
      by (by destruct w).
    destruct (isFocused _).
    + destruct (calm_after_hover_start _ H' Hm') as (_ & Hp & _).
      cbn in Hp. rewrite Hm' in Hp. rewrite Hp. by destruct w.
    + rewrite hover_end_video by done. by destruct w.
  - destruct (timers w !! i) as [[[] d]|] eqn:E; [| |by left].
    + left. revert H. clear E. destruct_world w. intros H. use_inv H. by subst jb.
    + revert H. clear E. destruct_world w. intros H. use_inv H. subst jb.
      unfold runTask, pauseVideo. cbn.
      destruct ip; cbn; [by left|right].
      destruct va; cbn; [by destruct rs|done].
  - destruct (promises w !! p) as [[[] [|] ?]|]; try (by left).
    destruct (pausedSafely_settle w p s (inv_jobs w H)) as [?|[? _]]; auto.
  - destruct (pausedSafely_dispatch (listenersOf type (video w)) error w H)
      as [?|[? _]]; auto.
  - left. by destruct w as [? ? ? [] ? ? ? ? ? ? ? ? ? ? ?].
  - left. by destruct w as [? ? ? [] ? ? ? ? ? ? ? ? ? ? ?].
  - destruct (mounted w) eqn:Hm; [|by left].
    left. revert H. destruct_world w. intros H. use_inv H. by subst jb.
Qed.

(** X9.  [pause()] is never called on an element whose play promise is
    pending: an event during which [pause()] is called leaves no play
    attempt in progress and no play promise pending. *)
Theorem never_paused_while_play_pending (w : World) (e : Event) :
  reachable w ->
  pauseCalls (video (step w e)) <> pauseCalls (video w) ->
  isPlayAttemptInProgress (mutablePlayAttemptState (step w e)) = false /\
  forall p, ~ pendingAttempt (step w e) p.
Proof.
  intros Hr Hne. pose proof (reachable_Inv w Hr) as H.
  destruct (pause_count_step w e H) as [Heq|Hip]; [done|].
  split; [done|]. intros p Hp.
  destruct (inv_attempt _ (Inv_step w e H) p Hp) as [Hip' _]. congruence.
Qed.

Lemma never_paused_while_play_pending_witness :
  let w := step hovered HoverEnd in
  let e := TimerExpired 2%nat in
  let w0 := step (step w (PlaySettled 1%nat Fulfilled)) HoverEnd in
  let e0 := TimerExpired 3%nat in
  reachable w0 /\
  pauseCalls (video (step w0 e0)) <> pauseCalls (video w0) /\
  pauseCalls (video (step w e)) = pauseCalls (video w) /\
  pendingAttempt (step w e) 1%nat /\
  isPlayAttemptInProgress (mutablePlayAttemptState (step w0 e0)) = false /\
  forall p, ~ pendingAttempt (step w0 e0) p.
Proof.
  intros w e w0 e0.
  assert (reachable w0) as Hr
    by (unfold w0, w, hovered, idle; repeat apply reachable_step; apply reachable_mount).
  assert (pauseCalls (video (step w0 e0)) <> pauseCalls (video w0)) as Hne
    by (vm_compute; discriminate).
  split; [exact Hr|]. split; [exact Hne|]. split; [reflexivity|].
  split; [exists true; vm_compute; reflexivity|].
  exact (never_paused_while_play_pending w0 e0 Hr Hne).
Defined.

(** ** After unmounting *)

Lemma settle_playCalls w p s :
  jobs w = [] ->
  playCalls (video (runTask (settle p s) w)) = playCalls (video w).
Proof.
  destruct_world w. cbn. intros ->. unfold runTask, settle. cbn.
  destruct (pm !! p) as [[n [s'|] []]|]; cbn; try done.
  destruct s; unfold onPlayRejected, onPlaySettled, pauseVideo; cbn.
  - destruct ic; cbn; [destruct va; cbn; [destruct rs; cbn|]|]; done.
  - destruct va; cbn; [|done]. destruct rs, ic; cbn; done.
Qed.

Lemma dispatch_playCalls ls e w :
  Inv w ->
  playCalls (video (fold_left (fun w l => runTask (runListener l e) w) ls w))
  = playCalls (video w).
Proof.
  revert w. induction ls as [|l ls IH]; intros w H; cbn; [done|].
  rewrite IH by (by apply listener_task_Inv).
  rewrite runListener_eq by apply H.
  rewrite settle_playCalls by (by destruct w, H).
  by destruct w as [? ? ? [] ? ? ? ? ? ? ? ? ? ? ?].
Qed.

Lemma unmounted_step_playCalls w e :
  Inv w -> mounted w = false ->
  playCalls (video (step w e)) = playCalls (video w).
Proof.
  intros H Hm. destruct e; cbn; rewrite ?Hm; cbn; try done.
  - destruct (inv_unmounted w H Hm) as [-> _]. by rewrite lookup_empty.
  - destruct (promises w !! p) as [[[] [|] ?]|]; try done.
    apply settle_playCalls, H.
  - by apply dispatch_playCalls.
  - by destruct w as [? ? ? [] ? ? ? ? ? ? ? ? ? ? ?].
  - by destruct w as [? ? ? [] ? ? ? ? ? ? ? ? ? ? ?].
Qed.

Lemma unmounted_run_inert es w :
  Inv w -> mounted w = false ->
  mounted (run w es) = false /\
  timers (run w es) = ∅ /\
  playCalls (video (run w es)) = playCalls (video w).
Proof.
  revert w. induction es as [|e es IH]; intros w H Hm; cbn.
  - split; [done|]. split; [|done]. by destruct (inv_unmounted w H Hm).
  - destruct (unmounted_step w e H Hm) as [Hm' _].
    rewrite <- (unmounted_step_playCalls w e H Hm).
    apply IH; [by apply Inv_step|done].
Qed.

(** X10.  Once the component is unmounted it stays unmounted, and
    whatever happens afterwards no timer is ever pending again and
    [play()] is never called again. *)
Theorem unmounted_is_inert (w : World) (es : list Event) :
  reachable w ->
  mounted w = true ->
  let w' := run (step w Unmount) es in
  mounted w' = false /\
  timers w' = ∅ /\
  playCalls (video w') = playCalls (video w).
Proof.
  intros Hr Hm w'. pose proof (reachable_Inv w Hr) as H.
  assert (mounted (step w Unmount) = false /\
          playCalls (video (step w Unmount)) = playCalls (video w)) as [Hm1 Hp1].
  { revert Hm. clear Hr w'. destruct_world w. use_inv H. intros ->. by subst jb. }
  destruct (unmounted_run_inert es (step w Unmount)) as (? & ? & ?);
    [by apply Inv_step|done|].
  subst w'. repeat split; congruence.
Qed.

Lemma unmounted_is_inert_witness :
  let es := [HoverStart; TimerExpired 1%nat; PlaySettled 1%nat Fulfilled;
             SetIsFocused true; HoverEnd] in
  let w' := run (step hovered Unmount) es in
  reachable hovered /\
  mounted hovered = true /\
  timers hovered = {[ 1%nat := mkTimer showLoadingState 200 ]} /\
  mounted w' = false /\
  timers w' = ∅ /\
  playCalls (video w') = playCalls (video hovered).
Proof.
  intros es w'.
  assert (reachable hovered) as Hr
    by (unfold hovered, idle; repeat apply reachable_step; apply reachable_mount).
  split; [exact Hr|]. split; [reflexivity|]. split; [vm_compute; reflexivity|].
  exact (unmounted_is_inert hovered es Hr eq_refl).
Defined.

(** ** Mounting and starting *)

(** X11.  Mounting leaves the phase Paused.  With [isFocused] false it
    leaves the component exactly as it was created: no timer, no call on
    the element.  With [isFocused] true it starts a play attempt at once:
    [play()] is called once and the attempt is pending on promise 1. *)
Theorem mount_effect (p : Props) (src : string) (thenable : bool) :
  let w := mount p src thenable in
  overlayState w = HOVER_PLAYER_STATE.paused /\
  mounted w = true /\
  if isFocused p then
    playCalls (video w) = 1%nat /\
    pauseCalls (video w) = 0%nat /\
    pendingAttempt w 1%nat /\
    mutablePlayAttemptState w = mkAttempt 1%nat true false
  else
    w = initialWorld p (newVideoElement src thenable).
Proof.
  destruct p as [foc po lo ld fd rs]. unfold mount, runTask, isFocusedEffect.
  destruct foc; cbn.
  - unfold onHoverStart, pendingAttempt. cbn.
    destruct lo, thenable; run_js; repeat split; try done.
    all: eexists; first [reflexivity | apply lookup_insert_eq].
  - unfold onHoverEnd. by cbn.
Qed.

(** X12.  A hover start on a mounted component with no attempt in
    progress and an element that is not playing calls [play()] once and
    leaves a new attempt pending, in progress and not cancelled; the phase
    stays as it was, [pause()] is not called, and the only pending timer is
    the loading timer when a loading overlay is given, none otherwise. *)
Theorem hover_start_starts_attempt (w : World) :
  reachable w ->
  mounted w = true ->
  isPlayAttemptInProgress (mutablePlayAttemptState w) = false ->
  playbackState (video w) <> VIDEO_STATE.playing ->
  let w' := step w HoverStart in
  let p := nextPromise w in
  playCalls (video w') = S (playCalls (video w)) /\
  pauseCalls (video w') = pauseCalls (video w) /\
  promises w !! p = None /\
  pendingAttempt w' p /\
  mutablePlayAttemptState w' = mkAttempt p true false /\
  overlayState w' = overlayState w /\
  timers w' =
    (if loadingOverlay (props w)
     then {[ nextTimer w :=
               mkTimer showLoadingState (loadingStateTimeoutDuration (props w)) ]}
     else ∅).
Proof.
  intros Hr. pose proof (reachable_Inv w Hr) as H. clear Hr.
  destruct_world w. use_inv H. intros -> -> Hv. subst jb. rewrite Ha by done.
  assert (pm !! np = None) as Hfresh.
  { destruct (pm !! np) eqn:E; [|done].
    assert (np < np)%nat by (apply Hp; eauto). lia. }
  destruct (cancel_both _ _ _ Ht) as [E1 E2].
  unfold runTask, onHoverStart, pendingAttempt. cbn. rewrite ?E1, ?E2.
  destruct ps; [|done|]; destruct lo, th; run_js; repeat split; try done.
  all: eexists; first [reflexivity | apply lookup_insert_eq].
Qed.

Lemma hover_start_starts_attempt_witness :
  let w' := step idle HoverStart in
  reachable idle /\
  mounted idle = true /\
  isPlayAttemptInProgress (mutablePlayAttemptState idle) = false /\
  playbackState (video idle) <> VIDEO_STATE.playing /\
  playCalls (video w') = S (playCalls (video idle)) /\
  pauseCalls (video w') = pauseCalls (video idle) /\
  promises idle !! nextPromise idle = None /\
  pendingAttempt w' (nextPromise idle) /\
  mutablePlayAttemptState w' = mkAttempt (nextPromise idle) true false /\
  overlayState w' = overlayState idle /\
  timers w' = {[ 1%nat := mkTimer showLoadingState 200 ]}.
Proof.
  intros w'.
  assert (reachable idle) as Hr by apply reachable_mount.
  assert (playbackState (video idle) <> VIDEO_STATE.playing) as Hv
    by (vm_compute; discriminate).
  split; [exact Hr|]. split; [reflexivity|]. split; [reflexivity|].
  split; [exact Hv|].
  exact (hover_start_starts_attempt idle Hr eq_refl eq_refl Hv).
Defined.

(** ** Stopping *)

(** X13.  A hover end that is not ignored, followed by the expiry of the
    pause timer it scheduled, leaves the phase Paused with no timer
    pending.  With no play attempt in progress the element is paused once
    and rewound when [shouldRestartOnVideoStopped] is set; with an attempt
    in progress the element is not touched and the cancellation is
    recorded instead. *)
Theorem hover_end_then_pause_timer (w : World) :
  reachable w ->
  mounted w = true ->
  isFocused (props w) = false ->
  playbackState (video w) <> VIDEO_STATE.paused ->
  let w' := step (step w HoverEnd) (TimerExpired (nextTimer w)) in
  overlayState w' = HOVER_PLAYER_STATE.paused /\
  timers w' = ∅ /\
  if isPlayAttemptInProgress (mutablePlayAttemptState w) then
    video w' = video w /\
    isPlayAttemptCancelled (mutablePlayAttemptState w') = true
  else
    pauseCalls (video w') = S (pauseCalls (video w)) /\
    playCalls (video w') = playCalls (video w) /\
    currentTime (video w') =
      (if shouldRestartOnVideoStopped (props w) then 0 else currentTime (video w)) /\
    mutablePlayAttemptState w' = mutablePlayAttemptState w.
Proof.
  intros Hr. pose proof (reachable_Inv w Hr) as H. clear Hr.
  destruct_world w. use_inv H. intros -> -> Hv. subst jb. rewrite Ha by done.
  destruct (cancel_both _ _ _ Ht) as [E1 E2].
  unfold runTask, onHoverEnd. cbn. rewrite ?E1, ?E2.
  destruct ps; [done| |]; cbn; rewrite lookup_insert_eq; cbn.
  all: rewrite delete_insert_eq, delete_empty.
  all: unfold runTask, pauseVideo; cbn.
  all: destruct ip; cbn; [done|]; by destruct rs.
Qed.

Lemma hover_end_then_pause_timer_witness :
  let w := step (step (step hovered (PlaySettled 1%nat Fulfilled))
                   (VideoStateChanged VIDEO_STATE.playing)) (TimeUpdate 2500) in
  let w' := step (step w HoverEnd) (TimerExpired (nextTimer w)) in
  reachable w /\
  mounted w = true /\
  isFocused (props w) = false /\
  playbackState (video w) <> VIDEO_STATE.paused /\
  overlayState w = HOVER_PLAYER_STATE.playing /\
  currentTime (video w) = 2500 /\
  overlayState w' = HOVER_PLAYER_STATE.paused /\
  timers w' = ∅ /\
  pauseCalls (video w') = S (pauseCalls (video w)) /\
  playCalls (video w') = playCalls (video w) /\
  currentTime (video w') = 0 /\
  mutablePlayAttemptState w' = mutablePlayAttemptState w.
Proof.
  intros w w'.
  assert (reachable w) as Hr
    by (unfold w, hovered, idle; repeat apply reachable_step; apply reachable_mount).
  assert (playbackState (video w) <> VIDEO_STATE.paused) as Hv
    by (vm_compute; discriminate).
  split; [exact Hr|]. split; [reflexivity|]. split; [reflexivity|].
  split; [exact Hv|]. split; [reflexivity|]. split; [reflexivity|].
  exact (hover_end_then_pause_timer w Hr eq_refl eq_refl Hv).
Defined.

(** ** Listeners *)

Lemma filter_ext_in {A} (P Q : A -> Prop) `{!forall x, Decision (P x)}
    `{!forall x, Decision (Q x)} (l : list A) :
  (forall x, x ∈ l -> P x <-> Q x) -> filter P l = filter Q l.
Proof.
  induction l as [|a l IH]; intros Hx; [done|].
  assert (filter P l = filter Q l) as E
    by (apply IH; intros x Hin; apply Hx; by apply elem_of_cons; right).
  assert (P a <-> Q a) as Ha by (apply Hx; by apply elem_of_cons; left).
  destruct (decide (P a)) as [HP|HP].
  - rewrite !filter_cons_True by tauto. by rewrite E.
  - rewrite !filter_cons_False by tauto. done.
Qed.

Lemma settle_listeners w p s :
  listeners (video (runTask (settle p s) w)) = listeners (video w).
Proof.
  unfold runTask.
  destruct (runJobs_frame (escaped (settle p s w))) as (_ & _ & _ & -> & _).
  destruct_world w. unfold settle. cbn.
  destruct (pm !! p) as [[n [s'|] []]|]; done.
Qed.

Lemma listener_task_listeners w l e :
  Inv w ->
  listeners (video (runTask (runListener l e) w)) =
  filter (fun x => x <> (listenerType l, l)) (listeners (video w)).
Proof.
  intros H. rewrite runListener_eq by apply H. rewrite settle_listeners.
  by destruct w as [? ? ? [] ? ? ? ? ? ? ? ? ? ? ?].
Qed.

Lemma dispatch_listeners ls e w :
  Inv w ->
  listeners (video (fold_left (fun w l => runTask (runListener l e) w) ls w)) =
  filter (fun x => x ∉ (fun l => (listenerType l, l)) <$> ls) (listeners (video w)).
Proof.
  revert w. induction ls as [|l ls IH]; intros w H; cbn.
  - induction (listeners (video w)) as [|a k IHk]; [done|].
    rewrite filter_cons_True by apply not_elem_of_nil. by rewrite <- IHk.
  - rewrite IH by (by apply listener_task_Inv).
    rewrite listener_task_listeners by done.
    rewrite list_filter_filter. apply list_filter_iff.
    intros x. rewrite not_elem_of_cons. tauto.
Qed.

(** X14.  When the element fires an event, every listener the component
    registered for that event type is removed from the element by the time
    the event is handled, and the listeners of other types stay
    registered. *)
Theorem dispatch_removes_listeners (w : World) (type error : string) :
  reachable w ->
  listeners (video (step w (VideoEvent type error))) =
  filter (fun x => fst x <> type) (listeners (video w)).
Proof.
  intros Hr. pose proof (reachable_Inv w Hr) as H. cbn [step].
  rewrite dispatch_listeners by done. apply filter_ext_in.
  intros [t l] Hin. destruct (inv_listeners w H t l Hin) as [-> _]. cbn.
  unfold listenersOf. split.
  - intros Hn Heq. apply Hn.
    apply list_elem_of_fmap. exists l. split; [done|].
    apply list_elem_of_fmap. exists (listenerType l, l). split; [done|].
    by apply list_elem_of_filter.
  - intros Hne Hin'.
    apply list_elem_of_fmap in Hin' as (l' & Heq & Hin').
    injection Heq as _ <-.
    apply list_elem_of_fmap in Hin' as ([t' l'] & -> & Hin').
    apply list_elem_of_filter in Hin' as [Ht Hin']. cbn in *.
    by destruct (inv_listeners w H t' l' Hin') as [-> _].
Qed.

Lemma dispatch_removes_listeners_witness :
  let w := step idleNoPromise HoverStart in
  reachable w /\
  listeners (video w) =
    [("playing"%string, onVideoPlaybackStarted 1%nat);
     ("error"%string, onVideoPlaybackFailed 1%nat)] /\
  listeners (video (step w (VideoEvent "playing" ""))) =
    [("error"%string, onVideoPlaybackFailed 1%nat)].
Proof.
  intros w.
  assert (reachable w) as Hr
    by (unfold w, idleNoPromise; repeat apply reachable_step; apply reachable_mount).
  split; [exact Hr|]. split; [reflexivity|].
  exact (dispatch_removes_listeners w "playing" "" Hr).
Defined.

(** ** When play() is called *)

Lemma timer_task_playCalls w cb :
  jobs w = [] ->
  playCalls (video (runTask (runTimerCallback cb) w)) = playCalls (video w).
Proof.
  destruct_world w. cbn. intros ->. destruct cb; unfold runTask; cbn; [done|].
  unfold pauseVideo. cbn.
  destruct ip; cbn; [done|]. destruct va; cbn; [destruct rs|]; done.
Qed.

Lemma hover_start_playCalls w :
  Inv w -> mounted w = true ->
  let w' := runTask onHoverStart w in
  playCalls (video w') = playCalls (video w) \/
  (isPlayAttemptInProgress (mutablePlayAttemptState w) = false /\
   playbackState (video w) <> VIDEO_STATE.playing /\
   playCalls (video w') = S (playCalls (video w))).
Proof.
  destruct_world w. intros H. use_inv H. intros ->. subst jb. rewrite Ha by done.
  unfold runTask, onHoverStart. cbn.
  destruct ps; [|by left|]; destruct lo, ip, th; run_js; auto.
Qed.

(** X15.  [play()] is called at most once per event, and only by a hover
    start or by [isFocused] turning true, on a mounted component with no
    play attempt in progress and an element that is not playing. *)
Theorem play_only_on_hover_start (w : World) (e : Event) :
  reachable w ->
  playCalls (video (step w e)) <> playCalls (video w) ->
  (e = HoverStart \/ e = SetIsFocused true) /\
  mounted w = true /\
  isPlayAttemptInProgress (mutablePlayAttemptState w) = false /\
  playbackState (video w) <> VIDEO_STATE.playing /\
  playCalls (video (step w e)) = S (playCalls (video w)).
Proof.
  intros Hr. pose proof (reachable_Inv w Hr) as H. clear Hr.
  destruct e as [| |b|i|p s|ty err|vs|t|]; cbn [step].
  - destruct (mounted w) eqn:Hm; [|done].
    destruct (hover_start_playCalls w H Hm) as [E|(? & ? & E)]; cbn in E;
      rewrite E; intros Hne; [done|auto 10].
  - destruct (mounted w) eqn:Hm; [|done]. by rewrite hover_end_video.
  - destruct (mounted w) eqn:Hm; [|done]. cbn.
    destruct (negb _); [|done]. rewrite runTask_isFocusedEffect.
    pose proof (Inv_set_isFocused w b H) as H'.
    assert (mounted (set_props (set_isFocused b (props w)) w) = true) as Hm'
      by (by destruct w).
    assert (isFocused (props (set_props (set_isFocused b (props w)) w)) = b) as ->
      by (by destruct w).
    destruct b.
    + destruct (hover_start_playCalls _ H' Hm') as [E|(Hi & Hv & E)]; cbn in E;
        rewrite E; intros Hne.
      * by destruct w.
      * destruct w; cbn in *. auto 10.
    + rewrite hover_end_video by done. by destruct w.
  - destruct (timers w !! i) as [t|]; [|done].
    rewrite timer_task_playCalls by (by destruct w, H). by destruct w.
  - destruct (promises w !! p) as [[[] [|] ?]|]; try done.
    by rewrite settle_playCalls by apply H.
  - by rewrite dispatch_playCalls.
  - by destruct w as [? ? ? [] ? ? ? ? ? ? ? ? ? ? ?].
  - by destruct w as [? ? ? [] ? ? ? ? ? ? ? ? ? ? ?].
  - destruct (mounted w) eqn:Hm; [|done].
    destruct_world w. use_inv H. by subst jb.
Qed.

Lemma play_only_on_hover_start_witness :
  reachable idle /\
  playCalls (video (step idle (SetIsFocused true))) <> playCalls (video idle) /\
  (SetIsFocused true = HoverStart \/ SetIsFocused true = SetIsFocused true) /\
  mounted idle = true /\
  isPlayAttemptInProgress (mutablePlayAttemptState idle) = false /\
  playbackState (video idle) <> VIDEO_STATE.playing /\
  playCalls (video (step idle (SetIsFocused true))) = S (playCalls (video idle)).
Proof.
  assert (reachable idle) as Hr by apply reachable_mount.
  assert (playCalls (video (step idle (SetIsFocused true))) <> playCalls (video idle))
    as Hne by (vm_compute; discriminate).
  split; [exact Hr|]. split; [exact Hne|].
  exact (play_only_on_hover_start idle (SetIsFocused true) Hr Hne).
Defined.

(** ** An attempt in progress is awaited *)

Ltac use_inv3 H3 :=
  destruct H3 as [Hip Hls]; unfold listening, pendingAttempt in *; cbn in *.

Ltac inv3_listening Hls :=
  let q := fresh "q" in let c := fresh "c" in let Hq := fresh "Hq" in
  intros q c Hq;
  repeat match type of Hq with
  | <[?k := _]> _ !! q = _ =>
      destruct (decide (q = k)) as [->|?];
      [ rewrite lookup_insert_eq in Hq; simplify_eq;
        split; rewrite ?elem_of_app, ?elem_of_cons; by auto 10
      | rewrite lookup_insert_ne in Hq by done ]
  end;
  destruct (Hls q c Hq); split; rewrite ?elem_of_app; by auto.

Ltac inv3_in_progress Hip :=
  first [ done
        | by auto
        | intros _; eexists; by apply lookup_insert_eq ].

Ltac solve_inv3 Hip Hls :=
  solve [split; unfold listening, pendingAttempt; cbn;
         [inv3_in_progress Hip | inv3_listening Hls]].

Lemma Inv3_initial p src thenable :
  Inv3 (initialWorld p (newVideoElement src thenable)).
Proof.
  split; unfold listening, pendingAttempt; cbn; [done|].
  intros q c Hq. by apply lookup_singleton_Some in Hq as [_ ?].
Qed.

Lemma Inv3_onHoverStart w :
  Inv w -> Inv3 w -> mounted w = true -> Inv3 (runTask onHoverStart w).
Proof.
  destruct_world w. intros H H3. use_inv H. use_inv3 H3. intros ->. subst jb.
  rewrite Ha by done.
  unfold runTask, onHoverStart. cbn.
  destruct ps; cbn.
  2:{ solve_inv3 Hip Hls. }
  all: destruct lo, ip, th; run_js.
  all: solve_inv3 Hip Hls.
Qed.

Lemma Inv3_onHoverEnd w :
  Inv w -> Inv3 w -> mounted w = true -> Inv3 (runTask onHoverEnd w).
Proof.
  destruct_world w. intros H H3. use_inv H. use_inv3 H3. intros ->. subst jb.
  rewrite Ha by done.
  unfold runTask, onHoverEnd. cbn.
  destruct foc; cbn; [solve_inv3 Hip Hls|].
  destruct ps; cbn; solve_inv3 Hip Hls.
Qed.

Lemma Inv3_set_isFocused w b :
  Inv3 w -> Inv3 (set_props (set_isFocused b (props w)) w).
Proof. intros H3. destruct w; destruct H3; by split. Qed.

Lemma Inv3_isFocusedEffect w :
  Inv w -> Inv3 w -> mounted w = true -> Inv3 (runTask isFocusedEffect w).
Proof.
  intros H H3 Hm. rewrite runTask_isFocusedEffect.
  destruct (isFocused (props w)); auto using Inv3_onHoverStart, Inv3_onHoverEnd.
Qed.

Lemma Inv3_mount p src thenable : Inv3 (mount p src thenable).
Proof.
  apply Inv3_isFocusedEffect; [by apply Inv_initial|apply Inv3_initial|done].
Qed.

Lemma Inv3_timer_task w i t :
  Inv w -> Inv3 w ->
  Inv3 (runTask (runTimerCallback (callback t)) (set_timers (delete i (timers w)) w)).
Proof.
  destruct_world w. intros H H3. use_inv H. use_inv3 H3. subst jb.
  destruct t as [[] d]; unfold runTask; cbn.
  - solve_inv3 Hip Hls.
  - unfold pauseVideo. cbn. destruct ip; cbn.
    + solve_inv3 Hip Hls.
    + destruct va; cbn; [destruct rs; cbn|]; solve_inv3 Hip Hls.
Qed.

(** Settling [p] keeps the invariant even when the listeners of [p] are
    gone already, as they are when one of them does the settling. *)
Lemma Inv3_settle_task w p s :
  Inv w ->
  (isPlayAttemptInProgress (mutablePlayAttemptState w) = true ->
   pendingAttempt w (playPromise (mutablePlayAttemptState w))) ->
  (forall q c, q <> p ->
     promises w !! q = Some (mkPromise false None c) -> listening w q) ->
  Inv3 (runTask (settle p s) w).
Proof.
  destruct_world w. intros H Hip Hls. use_inv H.
  unfold listening in *; cbn in *. subst jb.
  unfold runTask, settle. cbn.
  destruct (pm !! p) as [[n [s'|] c]|] eqn:E; cbn.
  1,3: split; unfold listening, pendingAttempt; cbn; [done|];
       intros q c' Hq; apply (Hls q c'); [congruence|done].
  assert (forall q c', <[p:=mkPromise n (Some s) c]> pm !! q = Some (mkPromise false None c') ->
          ("playing"%string, onVideoPlaybackStarted q) ∈ ls /\
          ("error"%string, onVideoPlaybackFailed q) ∈ ls) as Hls'.
  { intros q c' Hq. destruct (decide (q = p)) as [->|Hne].
    - rewrite lookup_insert_eq in Hq. by simplify_eq.
    - rewrite lookup_insert_ne in Hq by done. by apply (Hls q c'). }
  destruct c; cbn.
  2:{ split; unfold listening, pendingAttempt; cbn; [|done].
      intros Hi. destruct (Hip Hi) as [n' Hn'].
      destruct (decide (pp = p)) as [->|Hne]; [congruence|].
      exists n'. by rewrite lookup_insert_ne. }
  destruct s as [|error];
    unfold reaction, onPlayRejected, onPlaySettled, pauseVideo; cbn.
  - destruct ic; cbn; [destruct va; cbn; [destruct rs; cbn|]|].
    all: split; unfold listening, pendingAttempt; cbn; done.
  - destruct va; cbn; [destruct rs, ic; cbn|].
    all: split; unfold listening, pendingAttempt; cbn; done.
Qed.

Lemma Inv3_listener_task w l e :
  Inv w -> Inv3 w -> Inv3 (runTask (runListener l e) w).
Proof.
  intros H H3. rewrite runListener_eq by apply H.
  apply Inv3_settle_task.
  - by apply Inv_removeEventListener.
  - destruct w; destruct H3 as [Hip _]. exact Hip.
  - intros q c Hne Hq.
    destruct w as [? ? ? [] ? ? ? ? ? ? ? ? ? ? ?]. destruct H3 as [_ Hls].
    unfold listening in *. cbn in *. destruct (Hls q c Hq) as [H1 H2].
    split; apply list_elem_of_filter; (split; [|done]).
    all: destruct l; cbn in *; congruence.
Qed.

Lemma Inv3_dispatch ls e w :
  Inv w -> Inv3 w ->
  Inv3 (fold_left (fun w l => runTask (runListener l e) w) ls w).
Proof.
  revert w. induction ls as [|l ls IH]; intros w H H3; cbn; [done|].
  apply IH; [by apply listener_task_Inv|by apply Inv3_listener_task].
Qed.

Lemma Inv3_unmount w :
  Inv w -> Inv3 w ->
  Inv3 (runTask cleanup (set_videoAttached false (set_mounted false w))).
Proof.
  destruct_world w. intros H H3. use_inv H. use_inv3 H3. subst jb.
  unfold runTask, cleanup. cbn. solve_inv3 Hip Hls.
Qed.

Lemma Inv3_step w e : Inv w -> Inv3 w -> Inv3 (step w e).
Proof.
  intros H H3. destruct e; cbn.
  - destruct (mounted w) eqn:Hm; [by apply Inv3_onHoverStart|done].
  - destruct (mounted w) eqn:Hm; [by apply Inv3_onHoverEnd|done].
  - destruct (mounted w) eqn:Hm; cbn; [|done].
    destruct (negb _); [|done].
    apply Inv3_isFocusedEffect;
      [by apply Inv_set_isFocused|by apply Inv3_set_isFocused|by destruct w].
  - destruct (timers w !! i) eqn:E; [by apply Inv3_timer_task|done].
  - destruct (promises w !! p) as [[[] [|] ?]|]; try done.
    destruct H3 as [Hip Hls]. apply Inv3_settle_task; eauto.
  - by apply Inv3_dispatch.
  - destruct w as [? ? ? [] ? ? ? ? ? ? ? ? ? ? ?]. destruct H3. by split.
  - destruct w as [? ? ? [] ? ? ? ? ? ? ? ? ? ? ?]. destruct H3. by split.
  - destruct (mounted w) eqn:Hm; [by apply Inv3_unmount|done].
Qed.

Lemma reachable_Inv3 w : reachable w -> Inv3 w.
Proof.
  induction 1 as [|w e Hr IH]; [apply Inv3_mount|].
  apply Inv3_step; [by apply reachable_Inv|done].
Qed.

(** X16.  An attempt marked in progress is really awaited: its promise is
    pending with the reactions of [onHoverStart] attached, and when
    [playVideo] made that promise itself, the ['playing'] and the ['error']
    listener that settle it are still registered on the element. *)
Theorem in_progress_attempt_is_awaited (w : World) :
  reachable w ->
  isPlayAttemptInProgress (mutablePlayAttemptState w) = true ->
  exists n : bool,
    promises w !! playPromise (mutablePlayAttemptState w)
      = Some (mkPromise n None true) /\
    (n = false -> listening w (playPromise (mutablePlayAttemptState w))).
Proof.
  intros Hr Hi. destruct (reachable_Inv3 w Hr) as [Hip Hls].
  destruct (Hip Hi) as [n Hn]. exists n. split; [done|].
  intros ->. by apply (Hls _ true).
Qed.

Lemma in_progress_attempt_is_awaited_witness :
  let w := step (step idleNoPromise HoverStart) HoverEnd in
  reachable w /\
  isPlayAttemptInProgress (mutablePlayAttemptState w) = true /\
  playPromise (mutablePlayAttemptState w) = 1%nat /\
  exists n : bool,
    promises w !! playPromise (mutablePlayAttemptState w)
      = Some (mkPromise n None true) /\
    (n = false -> listening w (playPromise (mutablePlayAttemptState w))).
Proof.
  intros w.
  assert (reachable w) as Hr
    by (unfold w, idleNoPromise; repeat apply reachable_step; apply reachable_mount).
  split; [exact Hr|]. split; [reflexivity|]. split; [reflexivity|].
  exact (in_progress_attempt_is_awaited w Hr eq_refl).
Defined.

(** ** The in-progress flag is cleared by the settlement *)

Lemma settle_attempt w p s :
  Inv w ->
  let w' := runTask (settle p s) w in
  playPromise (mutablePlayAttemptState w') = playPromise (mutablePlayAttemptState w) /\
  (isPlayAttemptInProgress (mutablePlayAttemptState w) = false ->
   isPlayAttemptInProgress (mutablePlayAttemptState w') = false) /\
  (forall n, promises w !! p = Some (mkPromise n None true) ->
   isPlayAttemptInProgress (mutablePlayAttemptState w') = false).
Proof.
  destruct_world w. intros H. use_inv H. subst jb.
  unfold runTask, settle. cbn.
  destruct (pm !! p) as [[n [s'|] []]|] eqn:E; cbn; try done.
  destruct s as [|error];
    unfold reaction, onPlayRejected, onPlaySettled, pauseVideo; cbn.
  - destruct ic; cbn; [destruct va; cbn; [destruct rs; cbn|]|]; done.
  - destruct va; cbn; [destruct rs, ic; cbn|]; done.
Qed.

Lemma listener_attempt w l e :
  Inv w ->
  let w' := runTask (runListener l e) w in
  playPromise (mutablePlayAttemptState w') = playPromise (mutablePlayAttemptState w) /\
  (isPlayAttemptInProgress (mutablePlayAttemptState w) = false ->
   isPlayAttemptInProgress (mutablePlayAttemptState w') = false) /\
  (forall n, promises w !! listenerPromise l = Some (mkPromise n None true) ->
   isPlayAttemptInProgress (mutablePlayAttemptState w') = false).
Proof.
  intros H. cbn. rewrite runListener_eq by apply H.
  destruct (settle_attempt _ (listenerPromise l) (listenerSettlement l e)
              (Inv_removeEventListener w (listenerType l) l H)) as (E1 & E2 & E3).
  destruct w; cbn in *. auto.
Qed.

Lemma dispatch_keeps_idle ls e w :
  Inv w ->
  isPlayAttemptInProgress (mutablePlayAttemptState w) = false ->
  isPlayAttemptInProgress (mutablePlayAttemptState
    (fold_left (fun w l => runTask (runListener l e) w) ls w)) = false.
Proof.
  revert w. induction ls as [|l ls IH]; intros w H Hi; cbn; [done|].
  apply IH; [by apply listener_task_Inv|].
  by apply (listener_attempt w l e H).
Qed.

Lemma dispatch_clears ls e w l :
  Inv w -> Inv3 w ->
  l ∈ ls ->
  listenerPromise l = playPromise (mutablePlayAttemptState w) ->
  isPlayAttemptInProgress (mutablePlayAttemptState
    (fold_left (fun w l => runTask (runListener l e) w) ls w)) = false.
Proof.
  revert w. induction ls as [|l0 ls IH]; intros w H H3 Hin El; cbn.
  { by apply elem_of_nil in Hin. }
  destruct (listener_attempt w l0 e H) as (Ep & Ei & Ec). cbn in *.
  destruct (listener_task_Inv w l0 e H) as (H' & _).
  destruct (isPlayAttemptInProgress (mutablePlayAttemptState w)) eqn:Hi;
    [|apply dispatch_keeps_idle; auto].
  destruct (inv3_in_progress w H3 Hi) as [n Hn].
  destruct (decide (listenerPromise l0 = playPromise (mutablePlayAttemptState w)))
    as [E0|Hne].
  - apply dispatch_keeps_idle; [done|]. apply (Ec n). by rewrite E0.
  - apply elem_of_cons in Hin as [->|Hin]; [congruence|].
    apply IH; [done|by apply Inv3_listener_task|done|congruence].
Qed.

(** X17.  The in-progress flag never sticks: while it is set, the attempt's
    promise is pending, and the event that settles it clears the flag.
    For a promise returned by [play()] that event is the browser's
    fulfilment or rejection; for a promise [playVideo] made itself it is
    the element's next ['playing'] or ['error'] event. *)
Theorem settlement_clears_in_progress (w : World) :
  reachable w ->
  isPlayAttemptInProgress (mutablePlayAttemptState w) = true ->
  let p := playPromise (mutablePlayAttemptState w) in
  exists n : bool,
    promises w !! p = Some (mkPromise n None true) /\
    if n then
      forall s,
        isPlayAttemptInProgress
          (mutablePlayAttemptState (step w (PlaySettled p s))) = false
    else
      forall error,
        isPlayAttemptInProgress
          (mutablePlayAttemptState (step w (VideoEvent "playing" error))) = false /\
        isPlayAttemptInProgress
          (mutablePlayAttemptState (step w (VideoEvent "error" error))) = false.
Proof.
  intros Hr Hi p. pose proof (reachable_Inv w Hr) as H.
  pose proof (reachable_Inv3 w Hr) as H3.
  destruct (inv3_in_progress w H3 Hi) as [n Hn]. fold p in Hn.
  exists n. split; [done|]. destruct n.
  - intros s. cbn [step]. rewrite Hn.
    destruct (settle_attempt w p s H) as (_ & _ & Ec). by apply (Ec true).
  - intros error. destruct (inv3_listening w H3 p true Hn) as [L1 L2].
    split; cbn [step].
    + apply (dispatch_clears _ _ _ (onVideoPlaybackStarted p)); try done.
      unfold listenersOf. apply list_elem_of_fmap.
      exists ("playing"%string, onVideoPlaybackStarted p). split; [done|].
      by apply list_elem_of_filter.
    + apply (dispatch_clears _ _ _ (onVideoPlaybackFailed p)); try done.
      unfold listenersOf. apply list_elem_of_fmap.
      exists ("error"%string, onVideoPlaybackFailed p). split; [done|].
      by apply list_elem_of_filter.
Qed.

Lemma settlement_clears_in_progress_witness :
  let w := step (step idleNoPromise HoverStart) (TimerExpired 1%nat) in
  reachable w /\
  isPlayAttemptInProgress (mutablePlayAttemptState w) = true /\
  exists n : bool,
    promises w !! playPromise (mutablePlayAttemptState w)
      = Some (mkPromise n None true) /\
    if n then
      forall s,
        isPlayAttemptInProgress
          (mutablePlayAttemptState
             (step w (PlaySettled (playPromise (mutablePlayAttemptState w)) s))) = false
    else
      forall error,
        isPlayAttemptInProgress
          (mutablePlayAttemptState (step w (VideoEvent "playing" error))) = false /\
        isPlayAttemptInProgress
          (mutablePlayAttemptState (step w (VideoEvent "error" error))) = false.
Proof.
  intros w.
  assert (reachable w) as Hr
    by (unfold w, idleNoPromise; repeat apply reachable_step; apply reachable_mount).
  split; [exact Hr|]. split; [reflexivity|].
  exact (settlement_clears_in_progress w Hr eq_refl).
Defined.

(** ** What the tasks leave alone *)

Lemma sparing_refl w : sparing w w.
Proof. by repeat split. Qed.

Lemma sparing_trans w1 w2 w3 : sparing w1 w2 -> sparing w2 w3 -> sparing w1 w3.
Proof.
  intros (U1 & T1 & P1 & M1) (U2 & T2 & P2 & M2). repeat split.
  - intros Hm. rewrite U2 by congruence. auto.
  - intros Hr. rewrite T2 by congruence. auto.
  - congruence.
  - congruence.
Qed.

Lemma sparing_onHoverStart w :
  Inv w -> mounted w = true ->
  sparing w (runTask onHoverStart w) /\
  console (runTask onHoverStart w) = console w.
Proof.
  destruct_world w. intros H. use_inv H. intros ->. subst jb. rewrite Ha by done.
  unfold runTask, onHoverStart, sparing. cbn.
  destruct ps; [|done|]; destruct lo, ip, th; run_js; done.
Qed.

Lemma sparing_onHoverEnd w :
  Inv w -> mounted w = true ->
  sparing w (runTask onHoverEnd w) /\
  console (runTask onHoverEnd w) = console w.
Proof.
  destruct_world w. intros H. use_inv H. intros ->. subst jb. rewrite Ha by done.
  unfold runTask, onHoverEnd, sparing. cbn.
  destruct foc; cbn; [done|]. by destruct ps.
Qed.

Lemma sparing_timer_task w cb :
  Inv w ->
  sparing w (runTask (runTimerCallback cb) w) /\
  console (runTask (runTimerCallback cb) w) = console w.
Proof.
  destruct_world w. intros H. use_inv H. subst jb.
  destruct cb; unfold runTask, sparing; cbn; [done|].
  unfold pauseVideo. cbn. destruct ip; cbn; [done|].
  destruct va; cbn; [by destruct rs|].
  split; [|done]. repeat split; try done. intros Hm. by specialize (Ha Hm).
Qed.

Lemma sparing_settle_task w p s :
  Inv w ->
  sparing w (runTask (settle p s) w) /\
  (s = Fulfilled -> console (runTask (settle p s) w) = console w).
Proof.
  destruct_world w. intros H. use_inv H. subst jb.
  unfold runTask, settle, sparing. cbn.
  destruct (pm !! p) as [[n [s'|] []]|] eqn:E; cbn; try done.
  destruct s as [|error];
    unfold reaction, onPlayRejected, onPlaySettled, pauseVideo; cbn.
  - destruct ic; cbn; [destruct va; cbn; [by destruct rs|]|done].
    split; [|done]. repeat split; try done. intros Hm. by specialize (Ha Hm).
  - destruct va; cbn; [by destruct rs, ic|].
    split; [|done]. repeat split; try done. intros Hm. by specialize (Ha Hm).
Qed.

Lemma sparing_listener_task w l e :
  Inv w ->
  sparing w (runTask (runListener l e) w) /\
  (listenerType l <> "error"%string ->
   console (runTask (runListener l e) w) = console w).
Proof.
  intros H. rewrite runListener_eq by apply H.
  destruct (sparing_settle_task _ (listenerPromise l) (listenerSettlement l e)
              (Inv_removeEventListener w (listenerType l) l H)) as [S C].
  split.
  - eapply sparing_trans; [|exact S].
    by destruct w as [? ? ? [] ? ? ? ? ? ? ? ? ? ? ?].
  - intros Hne. rewrite C; [by destruct w|]. by destruct l.
Qed.

Lemma sparing_dispatch ls e w :
  Inv w ->
  let w' := fold_left (fun w l => runTask (runListener l e) w) ls w in
  sparing w w' /\
  (Forall (fun l => listenerType l <> "error"%string) ls -> console w' = console w).
Proof.
  revert w. induction ls as [|l ls IH]; intros w H; cbn.
  { split; [apply sparing_refl|done]. }
  destruct (sparing_listener_task w l e H) as [S C].
  destruct (IH _ (proj1 (listener_task_Inv w l e H))) as [S' C']. cbn in *.
  split; [by eapply sparing_trans|].
  intros Hf. inversion Hf; subst. rewrite C' by done. auto.
Qed.

Lemma Inv_delete_timer w (i : TimerId) : Inv w -> Inv (set_timers (delete i (timers w)) w).
Proof.
  destruct_world w. intros H. use_inv H. subst jb.
  solve_inv Ha Ht Hp Hat Hu Hl.
Qed.

Lemma sparing_step w e :
  Inv w ->
  (mounted (step w e) = true -> mounted w = true /\ uncaught (step w e) = uncaught w) /\
  (notTimeUpdate e -> shouldRestartOnVideoStopped (props w) = false ->
   currentTime (video (step w e)) = currentTime (video w)) /\
  shouldRestartOnVideoStopped (props (step w e)) = shouldRestartOnVideoStopped (props w) /\
  (~ isFailure e -> console (step w e) = console w).
Proof.
  intros H.
  assert (forall w', sparing w w' -> (~ isFailure e -> console w' = console w) ->
    (mounted w' = true -> mounted w = true /\ uncaught w' = uncaught w) /\
    (notTimeUpdate e -> shouldRestartOnVideoStopped (props w) = false ->
     currentTime (video w') = currentTime (video w)) /\
    shouldRestartOnVideoStopped (props w') = shouldRestartOnVideoStopped (props w) /\
    (~ isFailure e -> console w' = console w)) as Hs.
  { intros w' (U & T & P & M) C. rewrite P, M. auto. }
  destruct e as [| |b|i|p s|ty err|vs|t|]; cbn [step].
  - destruct (mounted w) eqn:Hm; [|apply Hs; [apply sparing_refl|done]].
    destruct (sparing_onHoverStart w H Hm). by apply Hs.
  - destruct (mounted w) eqn:Hm; [|apply Hs; [apply sparing_refl|done]].
    destruct (sparing_onHoverEnd w H Hm). by apply Hs.
  - destruct (mounted w) eqn:Hm; cbn; [|apply Hs; [apply sparing_refl|done]].
    destruct (negb _); [|apply Hs; [apply sparing_refl|done]].
    rewrite runTask_isFocusedEffect.
    pose proof (Inv_set_isFocused w b H) as H'.
    assert (mounted (set_props (set_isFocused b (props w)) w) = true) as Hm'
      by (by destruct w).
    assert (isFocused (props (set_props (set_isFocused b (props w)) w)) = b) as ->
      by (by destruct w).
    destruct b.
    + destruct (sparing_onHoverStart _ H' Hm') as [(U & T & P & M) C].
      rewrite C, P, M. destruct w as [[] ? ? ? ? ? ? ? ? ? ? ? ? ? ?]; cbn in *.
      auto.
    + destruct (sparing_onHoverEnd _ H' Hm') as [(U & T & P & M) C].
      rewrite C, P, M. destruct w as [[] ? ? ? ? ? ? ? ? ? ? ? ? ? ?]; cbn in *.
      auto.
  - destruct (timers w !! i) as [t|] eqn:E; [|apply Hs; [apply sparing_refl|done]].
    destruct (sparing_timer_task _ (callback t) (Inv_delete_timer w i H))
      as [(U & T & P & M) C].
    rewrite C, P, M. destruct w; cbn in *. auto.
  - destruct (promises w !! p) as [[[] [|] ?]|]; try (apply Hs; [apply sparing_refl|done]).
    destruct (sparing_settle_task w p s H) as [S C]. apply Hs; [done|].
    intros Hf. apply C. destruct s; [done|]. by destruct Hf.
  - destruct (sparing_dispatch (listenersOf ty (video w)) err w H) as [S C].
    apply Hs; [done|]. cbn. intros Hf. apply C.
    apply Forall_forall. intros l Hin. unfold listenersOf in Hin.
    apply list_elem_of_fmap in Hin as ([t' l'] & -> & Hin).
    apply list_elem_of_filter in Hin as [Ht Hin]. cbn in *.
    destruct (inv_listeners w H t' l' Hin) as [<- _]. congruence.
  - destruct w as [? ? ? [] ? ? ? ? ? ? ? ? ? ? ?]. by apply Hs.
  - destruct w as [? ? ? [] ? ? ? ? ? ? ? ? ? ? ?]. cbn. by repeat split.
  - destruct (mounted w) eqn:Hm; [|apply Hs; [apply sparing_refl|done]].
    destruct_world w. use_inv H. subst jb. unfold runTask, cleanup. by cbn.
Qed.

(** X18.  While the component is mounted none of its callbacks has thrown:
    every access to the element goes through a ref that is attached. *)
Theorem no_exception_while_mounted (w : World) :
  reachable w ->
  mounted w = true ->
  uncaught w = [].
Proof.
  induction 1 as [p src th|w e Hr IH].
  - intros _. unfold mount. rewrite runTask_isFocusedEffect.
    pose proof (Inv_initial p (newVideoElement src th) eq_refl) as H.
    destruct (isFocused (props _)).
    + destruct (sparing_onHoverStart _ H eq_refl) as [(U & _) _]. by rewrite U.
    + destruct (sparing_onHoverEnd _ H eq_refl) as [(U & _) _]. by rewrite U.
  - intros Hm. destruct (sparing_step w e (reachable_Inv w Hr)) as (U & _).
    destruct (U Hm) as [Hm' ->]. auto.
Qed.

Lemma no_exception_while_mounted_witness :
  let w := run hovered [PlaySettled 1%nat (Rejected "NotAllowedError"); HoverEnd;
                        TimerExpired 2%nat; HoverStart] in
  reachable w /\ mounted w = true /\ playCalls (video w) = 2%nat /\ uncaught w = [].
Proof.
  intros w.
  assert (reachable w) as Hr
    by (unfold w, run, hovered, idle; cbn [fold_left];
        repeat apply reachable_step; apply reachable_mount).
  split; [exact Hr|]. split; [reflexivity|]. split; [reflexivity|].
  exact (no_exception_while_mounted w Hr eq_refl).
Defined.

(** X19.  Nothing is written to the console by an event other than a
    rejection of the play promise or an ['error'] event of the element. *)
Theorem logs_only_failures (w : World) (e : Event) :
  reachable w ->
  ~ isFailure e ->
  console (step w e) = console w.
Proof.
  intros Hr He. by apply (sparing_step w e (reachable_Inv w Hr)).
Qed.

Lemma logs_only_failures_witness :
  let w := step (step hovered HoverEnd) (TimerExpired 2%nat) in
  reachable w /\
  ~ isFailure (PlaySettled 1%nat Fulfilled) /\
  pauseCalls (video (step w (PlaySettled 1%nat Fulfilled))) = 1%nat /\
  console (step w (PlaySettled 1%nat Fulfilled)) = console w.
Proof.
  intros w.
  assert (reachable w) as Hr
    by (unfold w, hovered, idle; repeat apply reachable_step; apply reachable_mount).
  assert (~ isFailure (PlaySettled 1%nat Fulfilled)) as He by (intros []).
  split; [exact Hr|]. split; [exact He|]. split; [reflexivity|].
  exact (logs_only_failures w (PlaySettled 1%nat Fulfilled) Hr He).
Defined.

Lemma position_kept_run es w :
  Inv w ->
  shouldRestartOnVideoStopped (props w) = false ->
  Forall notTimeUpdate es ->
  currentTime (video (run w es)) = currentTime (video w).
Proof.
  revert w. induction es as [|e es IH]; intros w H Hrs Hes; cbn; [done|].
  inversion Hes; subst.
  destruct (sparing_step w e H) as (_ & T & P & _).
  rewrite <- T by done. apply IH; [by apply Inv_step|congruence|done].
Qed.

(** X20.  With [shouldRestartOnVideoStopped] off the component never moves
    the playback position: whatever it is made to do, the position is where
    playback left it. *)
Theorem position_kept_without_restart (w : World) (es : list Event) :
  reachable w ->
  shouldRestartOnVideoStopped (props w) = false ->
  Forall notTimeUpdate es ->
  currentTime (video (run w es)) = currentTime (video w).
Proof. intros Hr. apply position_kept_run. by apply reachable_Inv. Qed.

Lemma position_kept_without_restart_witness :
  let p := mkProps false true true 200 400 false in
  let w := step (mount p "video.mp4" true) (TimeUpdate 1500) in
  let es := [HoverStart; PlaySettled 1%nat Fulfilled;
             VideoStateChanged VIDEO_STATE.playing; HoverEnd; TimerExpired 2%nat] in
  reachable w /\
  shouldRestartOnVideoStopped (props w) = false /\
  Forall notTimeUpdate es /\
  pauseCalls (video (run w es)) = 1%nat /\
  currentTime (video w) = 1500 /\
  currentTime (video (run w es)) = currentTime (video w).
Proof.
  intros p w es.
  assert (reachable w) as Hr
    by (unfold w; repeat apply reachable_step; apply reachable_mount).
  assert (Forall notTimeUpdate es) as Hes by (repeat constructor).
  split; [exact Hr|]. split; [reflexivity|]. split; [exact Hes|].
  split; [reflexivity|]. split; [reflexivity|].
  exact (position_kept_without_restart w es Hr eq_refl Hes).
Defined.
